(** * bincc evaluation scripts: clone-class scoring and name comparison

    A shallow embedding of [experiments/calculate_metrics.py] (the scoring of
    detected clone classes against the ground truth) and of the [compare]
    function of [experiments/comparison/compare.py], with the properties of
    the specification stated and proved over them.  The second part adds
    [to_ccs], [bindiff], the last loop of [deepbindiff] and, from
    [experiments/generate_ground_truth.py], [clone_map] and the choice of the
    functions joined in one class, with properties read off the code.

    Python values are modelled as follows.
    - a [set] of strings is a [gset string]; [==], [!=], [issubset],
      [union], [intersection], [difference] and [len] are the value
      operations of Python sets, hence the extensional ones of [gset];
    - a list of sets is a [list (gset string)], iterated front to back;
    - [int] is [Z];
    - the quotient [x / y] of two ints is Python's true division: it raises
      [ZeroDivisionError] when [y] is zero and otherwise yields the binary64
      number nearest to the exact quotient.  The embedding keeps the exact
      quotient in [Q].  Rounding to nearest is monotone, and it separates
      two distinct quotients of cardinalities below 2^26: on such classes
      the comparisons [score > best_score] of the script are decided alike
      on both, on larger ones they need not be ([best_jaccard64_tie]).
      [true_div64] rounds the quotient as the script does, the definitions
      named [...64] are lines 45-54 over it, and [best_jaccard64_steps]
      proves that the two agree on classes of fewer than 2^26 members;
    - a [str] is a [string]; the names compared are ASCII, on which the
      order [<] of Python, by code points, is [String.compare];
    - an uncaught exception is the [Raise] outcome of the [result] monad. *)

From Stdlib Require Import ZArith QArith Qabs Qpower String Ascii List Lia Lqa.
From stdpp Require Import gmap strings list pretty.

Open Scope Z_scope.

(** ** Python prelude *)

Module Py.

Inductive exn : Type :=
| ZeroDivisionError.

Inductive result (A : Type) : Type :=
| Ok (a : A)
| Raise (e : exn).

Arguments Ok {A} a.
Arguments Raise {A} e.

#[export] Instance result_ret : MRet result := fun _ a => Ok a.

#[export] Instance result_bind : MBind result := fun _ _ k m =>
  match m with
  | Ok a => k a
  | Raise e => Raise e
  end.

(** [for x in l: s = body(s, x)], stopping at the first exception. *)
Fixpoint for_each {A S : Type} (body : S -> A -> result S) (l : list A) (s : S)
  : result S :=
  match l with
  | [] => Ok s
  | x :: l' => s' ← body s x; for_each body l' s'
  end.

(** [len(s)] *)
Definition len (s : gset string) : Z := Z.of_nat (size s).

(** [x / y] on ints *)
Definition true_div (x y : Z) : result Q :=
  if y =? 0 then Raise ZeroDivisionError
  else Ok (inject_Z x / inject_Z y)%Q.

(** [x > y] on numbers *)
Definition num_gt (x y : Q) : bool := negb (Qle_bool x y).

(** [x == y] on numbers *)
Definition num_eq (x y : Q) : bool := Qeq_bool x y.

(** The integer nearest to [q], a half going to the even neighbour. *)
Definition round_half_even (q : Q) : Z :=
  let n := Qnum q in
  let d := Zpos (Qden q) in
  let f := n / d in
  let r := n mod d in
  if 2 * r <? d then f
  else if d <? 2 * r then f + 1
  else if Z.even f then f else f + 1.

(** [floor (log2 |q|)], for [q] other than zero. *)
Definition exponent (q : Q) : Z :=
  let k := Z.log2 (Z.abs (Qnum q)) - Z.log2 (Zpos (Qden q)) in
  if Qle_bool (2 ^ k) (Qabs q) then k else k - 1.

(** The binary64 number nearest to [q], a half going to the even mantissa:
    53 bits of precision, exponents from -1022 up, subnormal numbers below
    that.  The overflow beyond the largest binary64 number is left out: the
    quotients rounded here are at most 1. *)
Definition binary64 (q : Q) : Q :=
  let q := Qred q in
  if Qeq_bool q 0 then 0%Q
  else
    let e := Z.max (exponent q) (-1022) in
    let ulp := (2 ^ (e - 52))%Q in
    (inject_Z (round_half_even (q / ulp)) * ulp)%Q.

(** [x / y] on ints with the value the script holds: the quotient rounded
    to binary64. *)
Definition true_div64 (x y : Z) : result Q :=
  if y =? 0 then Raise ZeroDivisionError
  else Ok (binary64 (inject_Z x / inject_Z y)).

End Py.

Import Py.

(** ** calculate_metrics.py *)

Module Metrics.

(** The three counters [tp, fp, fn]. *)
Record counters : Type := Counters { tp : Z; fp : Z; fn : Z }.

(** Lines 39-42 and 56-59: the flag [subset] after the inner loop over the
    collection [coll] the class [cc] comes from. *)
Definition subset_flag (cc : gset string) (coll : list (gset string)) : bool :=
  fold_left
    (fun subset set2 =>
       if bool_decide (cc ≠ set2) && bool_decide (cc ⊆ set2)
       then subset || true
       else subset)
    coll false.

(** The classes of [coll] for which the loop body does not [continue]. *)
Definition survivors (coll : list (gset string)) : list (gset string) :=
  filter (fun cc => subset_flag cc coll = false) coll.

(** Lines 47-51: one iteration of the search for the best truth class. *)
Definition best_jaccard_step (cc : gset string) (best : Q * gset string)
    (other : gset string) : result (Q * gset string) :=
  let '(best_score, best_other) := best in
  let union := cc ∪ other in
  let intersection := cc ∩ other in
  score ← true_div (len intersection) (len union);
  if num_gt score best_score then Ok (score, other) else Ok (best_score, best_other).

(** Lines 45-51. *)
Definition best_jaccard (cc : gset string) (gt_ : list (gset string))
  : result (Q * gset string) :=
  for_each (best_jaccard_step cc) gt_ (0%Q, ∅).

(** Lines 45-54: what a detected class that was not skipped adds. *)
Definition score_detected (gt_ : list (gset string)) (c : counters)
    (cc : gset string) : result counters :=
  '(_, best_other) ← best_jaccard cc gt_;
  Ok {| tp := tp c + len (cc ∩ best_other);
        fp := fp c + len (cc ∖ best_other);
        fn := fn c + len (best_other ∖ cc) |}.

(** Lines 39-54: the body of the loop over [res]. *)
Definition detected_body (res gt_ : list (gset string)) (c : counters)
    (cc : gset string) : result counters :=
  if subset_flag cc res then Ok c
  else score_detected gt_ c cc.

(** Lines 64-66: one iteration of the search for the best detected class. *)
Definition best_overlap_step (cc : gset string) (best : Q * gset string)
    (other : gset string) : result (Q * gset string) :=
  let '(best_score, best_other) := best in
  let score := inject_Z (len (cc ∩ other)) in
  if num_gt score best_score then Ok (score, other) else Ok (best_score, best_other).

(** Lines 62-66. *)
Definition best_overlap (cc : gset string) (res : list (gset string))
  : result (Q * gset string) :=
  for_each (best_overlap_step cc) res (0%Q, ∅).

(** Lines 62-68: what a truth class that was not skipped adds. *)
Definition score_truth (res : list (gset string)) (c : counters)
    (cc : gset string) : result counters :=
  '(best_score, _) ← best_overlap cc res;
  if num_eq best_score 0%Q
  then Ok {| tp := tp c; fp := fp c; fn := fn c + len cc |}
  else Ok c.

(** Lines 56-68: the body of the loop over [gt]. *)
Definition truth_body (res gt_ : list (gset string)) (c : counters)
    (cc : gset string) : result counters :=
  if subset_flag cc gt_ then Ok c
  else score_truth res c cc.

(** Lines 37-68: both loops, from [tp, fp, fn = 0, 0, 0]. *)
Definition count (res gt_ : list (gset string)) : result counters :=
  c ← for_each (detected_body res gt_) res {| tp := 0; fp := 0; fn := 0 |};
  for_each (truth_body res gt_) gt_ c.

(** The derived figures [precision, recall, fscore]. *)
Record figures : Type := Figures { precision : Q; recall : Q; fscore : Q }.

(** Lines 69-71. *)
Definition derive (c : counters) : result figures :=
  precision ← true_div (tp c) (tp c + fp c);
  recall ← true_div (tp c) (tp c + fn c);
  fscore ← true_div (2 * tp c) (2 * tp c + fp c + fn c);
  Ok {| precision := precision; recall := recall; fscore := fscore |}.

(** Lines 37-71. *)
Definition scorer (res gt_ : list (gset string)) : result (counters * figures) :=
  c ← count res gt_;
  f ← derive c;
  Ok (c, f).

(** The digits printed by [{x:.4f}] for [x >= 0]: the number of
    ten-thousandths nearest to [x], halves going to the even one.  The
    script formats the binary64 value of a figure, [fixed4 (binary64 x)]. *)
Definition fixed4 (x : Q) : Z :=
  let n := Qnum x * 10000 in
  let d := Zpos (Qden x) in
  let q := n / d in
  let r := n mod d in
  if 2 * r <? d then q
  else if d <? 2 * r then q + 1
  else if Z.even q then q else q + 1.

(** The exact Jaccard similarity of two classes. *)
Definition jaccard (d t : gset string) : Q :=
  (inject_Z (len (d ∩ t)) / inject_Z (len (d ∪ t)))%Q.

(** Lines 47-51, the score being the binary64 number of the script. *)
Definition best_jaccard_step64 (cc : gset string) (best : Q * gset string)
    (other : gset string) : result (Q * gset string) :=
  let '(best_score, best_other) := best in
  let union := cc ∪ other in
  let intersection := cc ∩ other in
  score ← true_div64 (len intersection) (len union);
  if num_gt score best_score then Ok (score, other) else Ok (best_score, best_other).

(** Lines 45-51, in binary64. *)
Definition best_jaccard64 (cc : gset string) (gt_ : list (gset string))
  : result (Q * gset string) :=
  for_each (best_jaccard_step64 cc) gt_ (0%Q, ∅).

(** Lines 45-54, in binary64. *)
Definition score_detected64 (gt_ : list (gset string)) (c : counters)
    (cc : gset string) : result counters :=
  '(_, best_other) ← best_jaccard64 cc gt_;
  Ok {| tp := tp c + len (cc ∩ best_other);
        fp := fp c + len (cc ∖ best_other);
        fn := fn c + len (best_other ∖ cc) |}.

(** Lines 39-54, in binary64. *)
Definition detected_body64 (res gt_ : list (gset string)) (c : counters)
    (cc : gset string) : result counters :=
  if subset_flag cc res then Ok c
  else score_detected64 gt_ c cc.

End Metrics.

(** ** comparison/compare.py *)

Module Compare.

Local Open Scope string_scope.
Local Open Scope Z_scope.

(** Lines 9-36: the curated groups of functions known to be equivalent. *)
Definition jointp : list (gset string) :=
  [ {[ "md5_finish_ctx"; "sha1_finish_ctx" ]};
    {[ "imaxtostr"; "offtostr"; "inttostr" ]};
    {[ "getgroup"; "getuser" ]};
    {[ "saferead"; "safewrite" ]};
    {[ "getgidbyname"; "getuidbyname" ]};
    {[ "imaxtostr"; "umaxtostr" ]};
    {[ "sha512_read_ctx"; "sha224_read_ctx"; "sha384_read_ctx"; "sha256_read_ctx";
       "sha512_finish_ctx"; "sha224_finish_ctx"; "sha384_finish_ctx";
       "sha256_finish_ctx" ]};
    {[ "output_crc"; "output_bsd"; "output_sysv" ]};
    {[ "quotearg_custom_mem"; "quotearg_custom";
       "quotearg_n_custom_mem"; "quotearg_n_custom" ]};
    {[ "quotearg_style"; "quotearg_style_mem"; "quotearg_n_style";
       "quotearg_n_style_colon"; "quotearg_n_style_mem" ]};
    {[ "sha224_buffer"; "sha256_buffer"; "sha384_buffer"; "sha512_buffer" ]};
    {[ "sha256_process_block"; "sha512_process_block" ]};
    {[ "ftoastr"; "dtoastr"; "ldtoastr" ]};
    {[ "rev_xstrcoll_width"; "rev_strcmp_width"; "xstrcoll_width"; "strcmp_width" ]};
    {[ "open_safer"; "openat_safer"; "opendir_safer" ]};
    {[ "xstrcoll_atime"; "xstrcoll_ctime" ]};
    {[ "quotearg_char"; "quotearg_char_mem" ]};
    {[ "xizalloc"; "xzalloc" ]};
    {[ "xmemdup"; "ximemdup"; "ximemdup0" ]};
    {[ "fd_safer"; "fd_safer_flag" ]};
    {[ "AD_compare"; "dev_ino_compare"; "src_to_dest_compare" ]} ].

(** [c in s] for a character [c] *)
Fixpoint contains (c : ascii) (s : string) : bool :=
  match s with
  | EmptyString => false
  | String x s' => Ascii.eqb x c || contains c s'
  end.

Fixpoint find_from (c : ascii) (s : string) (i : Z) : Z :=
  match s with
  | EmptyString => -1
  | String x s' => if Ascii.eqb x c then i else find_from c s' (i + 1)
  end.

(** [s.find(c)]: the index of the first [c], or [-1] *)
Definition find (c : ascii) (s : string) : Z := find_from c s 0.

Fixpoint drop (n : nat) (s : string) : string :=
  match n, s with
  | O, _ => s
  | S _, EmptyString => EmptyString
  | S n', String _ s' => drop n' s'
  end.

(** [s[k:]]; a negative [k] counts from the end *)
Definition slice_from (k : Z) (s : string) : string :=
  let n := Z.of_nat (String.length s) in
  let start := if k <? 0 then Z.max 0 (n + k) else k in
  drop (Z.to_nat start) s.

(** Lines 40-41 and 42-43: the statement [if '.' in a: a = a[a.find('.')+1:]]. *)
Definition strip (a : string) : string :=
  if contains "." a then slice_from (find "." a + 1) a else a.

(** Lines 49-53: the loop over [jointp], its early [return], and the
    statement after the loop. *)
Fixpoint search (groups : list (gset string)) (a b : string)
    (correct_set wrong_set : gset (string * string))
  : gset (string * string) * gset (string * string) :=
  match groups with
  | [] => (correct_set, wrong_set ∪ {[ (a, b) ]})
  | subset :: groups' =>
      if bool_decide (a ∈ subset) && bool_decide (b ∈ subset)
      then (correct_set ∪ {[ (a, b) ]}, wrong_set)
      else search groups' a b correct_set wrong_set
  end.

(** Lines 39-53.  The two sets are mutated in place by the script; the
    function returns them as they are after the call. *)
Definition compare (a b : string) (correct_set wrong_set : gset (string * string))
  : gset (string * string) * gset (string * string) :=
  let a := strip a in
  let b := strip b in
  let '(a, b) := if String.ltb b a then (b, a) else (a, b) in
  if String.eqb a b && negb (String.eqb a "main")
  then (correct_set ∪ {[ (a, b) ]}, wrong_set)
  else search jointp a b correct_set wrong_set.

(** The name without the prefix that ends at its first ['.'], if it has one:
    the stripping of the specification, written by recursion on the name. *)
Fixpoint after_dot (s : string) : option string :=
  match s with
  | EmptyString => None
  | String x s' => if Ascii.eqb x "." then Some s' else after_dot s'
  end.

Definition unprefixed (s : string) : string := default s (after_dot s).

(** The pair in lexicographic order. *)
Definition ordered (a b : string) : string * string :=
  match String.compare a b with
  | Gt => (b, a)
  | _ => (a, b)
  end.

(** Two bare names are the same clone pair: they are equal and not [main],
    or one Known Equivalence Group holds both. *)
Definition same_clone_pair (a b : string) : Prop :=
  (a = b ∧ a ≠ "main") ∨ ∃ g, g ∈ jointp ∧ a ∈ g ∧ b ∈ g.

(** Line 64: [zip] over the same iterator twice, which takes the elements of
    [content_int] two by two; a last element without a partner is left out. *)
Fixpoint pairs {A : Type} (l : list A) : list (A * A) :=
  match l with
  | x :: y :: l' => (x, y) :: pairs l'
  | _ => []
  end.

(** Lines 115-116: [compare] called on each reported pair in turn. *)
Definition compare_all (clones : list (string * string))
    (correct wrong : gset (string * string))
  : gset (string * string) * gset (string * string) :=
  fold_left (fun sets clone => compare clone.1 clone.2 sets.1 sets.2)
    clones (correct, wrong).

(** Lines 113-117, the end of [deepbindiff]: [clones] is a set, visited in
    the order of its elements. *)
Definition classify (clones : gset (string * string))
  : gset (string * string) * gset (string * string) :=
  compare_all (elements clones) ∅ ∅.

Section bindiff.

(** The numbers of the column [similarity] are binary64 in the script; the
    type and its order [>] are left open here. *)
Context {number : Type} (above : number -> number -> bool).

(** The columns of the BinDiff table that [bindiff] reads. *)
Record bd_row : Type := BdRow {
  primary_name : string;
  secondary_name : string;
  bbs : Z;
  similarity : number
}.

(** Lines 121-131, on the table read at line 122. *)
Definition bindiff (bd_res : list bd_row) (minsim : number)
  : gset (string * string) * gset (string * string) :=
  let bd_res := filter (fun row => 1 < bbs row) bd_res in
  let bd_res := filter (fun row => above (similarity row) minsim = true) bd_res in
  compare_all ((fun row => (primary_name row, secondary_name row)) <$> bd_res) ∅ ∅.

End bindiff.

(** Lines 146-149: [bd_tp/(bd_tp+bd_fp)] with [bd_tp, bd_fp = len(bd_correct),
    len(bd_wrong)], and the same for [dbd_precision]. *)
Definition bd_precision (bd_correct bd_wrong : gset (string * string)) : result Q :=
  let bd_tp := Z.of_nat (size bd_correct) in
  let bd_fp := Z.of_nat (size bd_wrong) in
  true_div bd_tp (bd_tp + bd_fp).

End Compare.

(** ** calculate_metrics.py, from a table to clone classes *)

Module CloneClasses.

Local Open Scope string_scope.
Local Open Scope Z_scope.

(** The columns of a table that [to_ccs] reads. *)
Record row : Type := Row {
  arch : string;
  bits : Z;
  binary : string;
  function : string;
  clone_class_id : Z
}.

(** [os.path.basename(p)]: what follows the last ['/'] of [p]. *)
Fixpoint basename (p : string) : string :=
  match p with
  | EmptyString => EmptyString
  | String c p' =>
      if Compare.contains "/" p' then basename p'
      else if Ascii.eqb c "/" then p' else p
  end.

(** [s.max()] on a column of ints; on an empty column it is NaN, here [None]. *)
Definition column_max (s : list Z) : option Z :=
  match s with
  | [] => None
  | x :: s' => Some (fold_left Z.max s' x)
  end.

(** Lines 17-21: the string added for a row; [str(bits)] is [pretty]. *)
Definition identifier (r : row) : string :=
  "[" +:+ arch r +:+ pretty (bits r) +:+ "]" +:+ basename (binary r)
  +:+ "::" +:+ function r.

(** Lines 14-21: the set [clones] built for the class index [i]. *)
Definition clones_of (df : list row) (i : Z) : gset string :=
  let classdf := filter (fun r => clone_class_id r = i) df in
  fold_left (fun clones r => clones ∪ {[ identifier r ]}) classdf ∅.

(** [m + 1] for the numpy int64 [m] that [max] returns: the largest int64
    wraps around to the smallest. *)
Definition int64_succ (m : Z) : Z :=
  if m =? 2 ^ 63 - 1 then - 2 ^ 63 else m + 1.

(** Lines 10-23.  On an empty table [total] is NaN and [range(0, total)]
    raises [TypeError]: the outcome [None]. *)
Definition to_ccs (df : list row) : option (list (gset string)) :=
  m ← column_max (clone_class_id <$> df);
  let total := int64_succ m in
  Some (clones_of df <$> seqZ 0 total).

End CloneClasses.

(** ** generate_ground_truth.py *)

Module GroundTruth.

Local Open Scope string_scope.

(** The columns of [function_names.csv] that [clone_map] reads. *)
Record row : Type := Row {
  arch : string;
  bin : string;
  func : string
}.

(** Line 46: [funcs[func].add(bin)] on a [defaultdict(set)]. *)
Definition add_bin (funcs : gmap string (gset string)) (r : row)
  : gmap string (gset string) :=
  <[ func r := default ∅ (funcs !! func r) ∪ {[ bin r ]} ]> funcs.

(** Lines 37-53, on the table read at line 38. *)
Definition clone_map (df : list row) (arch_ : string)
  : gmap string (gset string) * list row :=
  let funcs : gmap string (gset string) := ∅ in
  let config := filter (fun r => arch r = arch_) df in
  let funcs := fold_left add_bin config funcs in
  let funcs := delete "main" funcs in
  let funcs := delete "dbg.main" funcs in
  let funcs := delete "entry.fini0" funcs in
  let funcs := delete "entry.init0" funcs in
  (funcs, config).

(** Lines 7-34: the groups of functions to be joined in one clone class. *)
Definition jointp : list (gset string) :=
  [ {[ "dbg.md5_finish_ctx"; "dbg.sha1_finish_ctx" ]};
    {[ "dbg.imaxtostr"; "dbg.offtostr"; "dbg.inttostr" ]};
    {[ "dbg.getgroup"; "dbg.getuser" ]};
    {[ "dbg.saferead"; "dbg.safewrite" ]};
    {[ "dbg.getgidbyname"; "dbg.getuidbyname" ]};
    {[ "dbg.imaxtostr"; "dbg.umaxtostr" ]};
    {[ "sym.sha512_read_ctx"; "sym.sha224_read_ctx"; "sym.sha384_read_ctx";
       "sym.sha256_read_ctx"; "sym.sha512_finish_ctx"; "sym.sha224_finish_ctx";
       "sym.sha384_finish_ctx"; "sym.sha256_finish_ctx" ]};
    {[ "dbg.output_crc"; "dbg.output_bsd"; "dbg.output_sysv" ]};
    {[ "sym.quotearg_custom_mem"; "sym.quotearg_custom";
       "sym.quotearg_n_custom_mem"; "sym.quotearg_n_custom" ]};
    {[ "sym.quotearg_style"; "sym.quotearg_style_mem"; "sym.quotearg_n_style";
       "sym.quotearg_n_style_colon"; "sym.quotearg_n_style_mem" ]};
    {[ "dbg.sha224_buffer"; "dbg.sha256_buffer"; "dbg.sha384_buffer";
       "dbg.sha512_buffer" ]};
    {[ "dbg.sha256_process_block"; "dbg.sha512_process_block" ]};
    {[ "dbg.ftoastr"; "dbg.dtoastr"; "dbg.ldtoastr" ]};
    {[ "dbg.rev_xstrcoll_width"; "dbg.rev_strcmp_width"; "dbg.xstrcoll_width";
       "dbg.strcmp_width" ]};
    {[ "dbg.open_safer"; "dbg.openat_safer"; "dbg.opendir_safer" ]};
    {[ "dbg.xstrcoll_atime"; "dbg.xstrcoll_ctime" ]};
    {[ "sym.quotearg_char"; "sym.quotearg_char_mem" ]};
    {[ "dbg.xizalloc"; "dbg.xzalloc" ]};
    {[ "sym.xmemdup"; "dbg.ximemdup"; "dbg.ximemdup0" ]};
    {[ "dbg.fd_safer"; "dbg.fd_safer_flag" ]};
    {[ "dbg.AD_compare"; "dbg.dev_ino_compare"; "dbg.src_to_dest_compare" ]} ].


End GroundTruth.

Import Metrics.

(** ** Specification predicates *)

(** [best_of cc l b]: [b] is the pair [(best_score, best_other)] that
    lines 45-51 hold after the classes [l] have been tried against [cc]:
    the initial pair when no class of [l] shares a member with [cc], and
    otherwise the first class of [l] of greatest Jaccard similarity. *)
Inductive best_of (cc : gset string) (l : list (gset string)) : Q * gset string -> Prop :=
| best_none :
    (∀ t, t ∈ l → cc ∩ t = ∅) →
    best_of cc l (0%Q, ∅)
| best_at (i : nat) (t' : gset string) :
    l !! i = Some t' →
    (0 < jaccard cc t')%Q →
    (∀ t, t ∈ l → (jaccard cc t <= jaccard cc t')%Q) →
    (∀ j t, (j < i)%nat → l !! j = Some t → (jaccard cc t < jaccard cc t')%Q) →
    best_of cc l (jaccard cc t', t').

(** [overlap_of cc l b]: [b] is the pair [(best_score, best_other)] after the
    classes [l] have been tried against [cc] by intersection size: the
    initial pair when no class of [l] shares a member with [cc], and otherwise
    the first class of [l] of greatest intersection with [cc]. *)
Inductive overlap_of (cc : gset string) (l : list (gset string)) : Z * gset string -> Prop :=
| overlap_none :
    (∀ r, r ∈ l → len (cc ∩ r) = 0) →
    overlap_of cc l (0, ∅)
| overlap_at (i : nat) (r' : gset string) :
    l !! i = Some r' →
    0 < len (cc ∩ r') →
    (∀ r, r ∈ l → len (cc ∩ r) <= len (cc ∩ r')) →
    (∀ j r, (j < i)%nat → l !! j = Some r → len (cc ∩ r) < len (cc ∩ r')) →
    overlap_of cc l (len (cc ∩ r'), r').

(** The pair that [compare] stores for the reported pair [clone]: both names
    without their prefix, in lexicographic order. *)
Definition stored_pair (clone : string * string) : string * string :=
  Compare.ordered (Compare.unprefixed clone.1) (Compare.unprefixed clone.2).

(** A quotient of two sizes below 2^26, between 0 and 1. *)
Definition small_quotient (q : Q) : Prop :=
  ∃ (a : Z) (b : positive),
    0 <= a <= Zpos b ∧ Zpos b < 2 ^ 26 ∧ (q == a # b)%Q.

(** The members of the classes of [l], counted class by class. *)
Definition total_len (l : list (gset string)) : Z :=
  foldr (fun s n => len s + n) 0 l.

(** ** The loops *)

Lemma bind_Ok {A B : Type} (a : A) (k : A -> result B) : Ok a ≫= k = k a.
Proof. done. Qed.

Lemma for_each_app {A S : Type} (body : S -> A -> result S) (l1 l2 : list A) (s : S) :
  for_each body (l1 ++ l2) s = s' ← for_each body l1 s; for_each body l2 s'.
Proof.
  revert s. induction l1 as [|x l1 IH]; intros s; simpl; [done|].
  destruct (body s x) as [s'|e]; simpl; [apply IH | done].
Qed.

Lemma for_each_snoc {A S : Type} (body : S -> A -> result S) (l : list A) (x : A) (s : S) :
  for_each body (l ++ [x]) s = s' ← for_each body l s; body s' x.
Proof.
  rewrite for_each_app. destruct (for_each body l s) as [s'|e]; simpl; [|done].
  by destruct (body s' x).
Qed.

(** ** The subsumption filter *)

Lemma subset_flag_fold (cc : gset string) (coll : list (gset string)) (acc : bool) :
  fold_left
    (fun subset set2 =>
       if bool_decide (cc ≠ set2) && bool_decide (cc ⊆ set2)
       then subset || true
       else subset)
    coll acc = true
  ↔ acc = true ∨ ∃ set2, set2 ∈ coll ∧ cc ≠ set2 ∧ cc ⊆ set2.
Proof.
  revert acc. induction coll as [|s coll IH]; intros acc; simpl.
  - split; [by left|]. intros [?|(s & Hs & _)]; [done|]. by apply elem_of_nil in Hs.
  - rewrite IH. destruct (bool_decide (cc ≠ s)) eqn:Hne;
      destruct (bool_decide (cc ⊆ s)) eqn:Hsub; simpl.
    + apply bool_decide_eq_true in Hne, Hsub. rewrite orb_true_r. split.
      * intros _. right. exists s. split; [left|done].
      * intros _. by left.
    + apply bool_decide_eq_false in Hsub. split.
      * intros [?|(s' & Hs' & ?)]; [by left|]. right. exists s'. split; [by right|done].
      * intros [?|(s' & Hs' & ? & ?)]; [by left|]. right.
        apply elem_of_cons in Hs' as [->|Hs']; [done|]. by exists s'.
    + apply bool_decide_eq_false in Hne. split.
      * intros [?|(s' & Hs' & ?)]; [by left|]. right. exists s'. split; [by right|done].
      * intros [?|(s' & Hs' & ? & ?)]; [by left|]. right.
        apply elem_of_cons in Hs' as [->|Hs']; [done|]. by exists s'.
    + apply bool_decide_eq_false in Hne. split.
      * intros [?|(s' & Hs' & ?)]; [by left|]. right. exists s'. split; [by right|done].
      * intros [?|(s' & Hs' & ? & ?)]; [by left|]. right.
        apply elem_of_cons in Hs' as [->|Hs']; [done|]. by exists s'.
Qed.

Lemma subset_flag_true (cc : gset string) (coll : list (gset string)) :
  subset_flag cc coll = true ↔ ∃ set2, set2 ∈ coll ∧ cc ⊂ set2.
Proof.
  unfold subset_flag. rewrite subset_flag_fold. split.
  - intros [?|(s & Hs & Hne & Hsub)]; [done|]. exists s. split; [done|].
    split; [done|]. intros Hback. apply Hne. by apply (anti_symm (⊆)).
  - intros (s & Hs & Hsub & Hnsub). right. exists s. split; [done|].
    split; [|done]. intros ->. by apply Hnsub.
Qed.

Lemma subset_flag_false (cc : gset string) (coll : list (gset string)) :
  subset_flag cc coll = false ↔ ∀ set2, set2 ∈ coll → ¬ cc ⊂ set2.
Proof.
  rewrite <- not_true_iff_false, subset_flag_true. split.
  - intros Hno s Hs Hsub. apply Hno. by exists s.
  - intros Hall (s & Hs & Hsub). by apply (Hall s).
Qed.

Lemma subset_flag_sublist (cc : gset string) (coll coll' : list (gset string)) :
  (∀ s, s ∈ coll' → s ∈ coll) →
  subset_flag cc coll = false → subset_flag cc coll' = false.
Proof.
  rewrite !subset_flag_false. intros Hincl Hall s Hs. apply Hall. by apply Hincl.
Qed.

Lemma for_each_cons {A S : Type} (body : S -> A -> result S) (x : A) (l : list A) (s : S) :
  for_each body (x :: l) s = s' ← body s x; for_each body l s'.
Proof. done. Qed.

Lemma for_each_singleton {A S : Type} (body : S -> A -> result S) (x : A) (s : S) :
  for_each body [x] s = body s x.
Proof. simpl. by destruct (body s x). Qed.

Lemma detected_body_skip (res gt_ : list (gset string)) (c : counters) (cc : gset string) :
  subset_flag cc res = true → detected_body res gt_ c cc = Ok c.
Proof. intros H. unfold detected_body. by rewrite H. Qed.

Lemma detected_body_keep (res gt_ : list (gset string)) (c : counters) (cc : gset string) :
  subset_flag cc res = false → detected_body res gt_ c cc = score_detected gt_ c cc.
Proof. intros H. unfold detected_body. by rewrite H. Qed.

Lemma truth_body_skip (res gt_ : list (gset string)) (c : counters) (cc : gset string) :
  subset_flag cc gt_ = true → truth_body res gt_ c cc = Ok c.
Proof. intros H. unfold truth_body. by rewrite H. Qed.

Lemma truth_body_keep (res gt_ : list (gset string)) (c : counters) (cc : gset string) :
  subset_flag cc gt_ = false → truth_body res gt_ c cc = score_truth res c cc.
Proof. intros H. unfold truth_body. by rewrite H. Qed.

(** The loop over [res] visits the survivors of [res], in order. *)
Lemma detected_loop_survivors (res gt_ l : list (gset string)) (c : counters) :
  for_each (detected_body res gt_) l c
  = for_each (score_detected gt_) (filter (fun cc => subset_flag cc res = false) l) c.
Proof.
  revert c. induction l as [|cc l IH]; intros c; [done|].
  rewrite for_each_cons. destruct (subset_flag cc res) eqn:Hflag.
  - rewrite detected_body_skip by done. rewrite filter_cons_False by (by rewrite Hflag).
    apply IH.
  - rewrite detected_body_keep by done. rewrite filter_cons_True by done.
    rewrite for_each_cons. destruct (score_detected gt_ c cc); simpl; [apply IH | done].
Qed.

(** The loop over [gt] visits the survivors of [gt], in order. *)
Lemma truth_loop_survivors (res gt_ l : list (gset string)) (c : counters) :
  for_each (truth_body res gt_) l c
  = for_each (score_truth res) (filter (fun cc => subset_flag cc gt_ = false) l) c.
Proof.
  revert c. induction l as [|cc l IH]; intros c; [done|].
  rewrite for_each_cons. destruct (subset_flag cc gt_) eqn:Hflag.
  - rewrite truth_body_skip by done. rewrite filter_cons_False by (by rewrite Hflag).
    apply IH.
  - rewrite truth_body_keep by done. rewrite filter_cons_True by done.
    rewrite for_each_cons. destruct (score_truth res c cc); simpl; [apply IH | done].
Qed.

Lemma count_survivors (res gt_ : list (gset string)) :
  count res gt_
  = c ← for_each (score_detected gt_) (survivors res) {| tp := 0; fp := 0; fn := 0 |};
    for_each (score_truth res) (survivors gt_) c.
Proof.
  unfold count, survivors. rewrite detected_loop_survivors.
  destruct (for_each (score_detected gt_) _ _); simpl; [|done].
  apply truth_loop_survivors.
Qed.

Lemma elem_of_survivors (cc : gset string) (coll : list (gset string)) :
  cc ∈ survivors coll ↔ cc ∈ coll ∧ subset_flag cc coll = false.
Proof. unfold survivors. rewrite list_elem_of_filter. tauto. Qed.

(** C2, as the code has it: the filter discards a class exactly when some
    class of the same collection is a strict superset of it, and a discarded
    class changes no counter in either loop; a class survives exactly when
    every sibling that contains it is equal to it, so classes of equal value
    never discard each other. *)
Theorem subsumption_filter_strict (coll other : list (gset string))
    (cc : gset string) (c : counters) :
  (subset_flag cc coll = true ↔ ∃ set2, set2 ∈ coll ∧ cc ⊂ set2)
  ∧ (subset_flag cc coll = true →
     detected_body coll other c cc = Ok c ∧ truth_body other coll c cc = Ok c)
  ∧ (cc ∈ survivors coll ↔
     cc ∈ coll ∧ ∀ set2, set2 ∈ coll → cc ⊆ set2 → set2 = cc).
Proof.
  split; [apply subset_flag_true|]. split.
  - intros H. split; [by apply detected_body_skip | by apply truth_body_skip].
  - rewrite elem_of_survivors, subset_flag_false. split.
    + intros [Hin Hall]. split; [done|]. intros s Hs Hsub.
      destruct (decide (s = cc)) as [|Hne]; [done|]. exfalso.
      apply (Hall s Hs). split; [done|]. intros Hback. apply Hne.
      by apply (anti_symm (⊆)).
    + intros [Hin Hall]. split; [done|]. intros s Hs [Hsub Hnsub].
      apply Hnsub. by rewrite (Hall s Hs Hsub).
Qed.

(** C9: filtering the survivors of a collection again keeps all of them. *)
Theorem subsumption_filter_idempotent (coll : list (gset string)) :
  survivors (survivors coll) = survivors coll.
Proof.
  unfold survivors at 1 3.
  apply (list_filter_filter_r
           (fun cc => subset_flag cc (survivors coll) = false)
           (fun cc => subset_flag cc coll = false)).
  intros cc. apply subset_flag_sublist.
  intros s Hs. by apply elem_of_survivors in Hs as [? _].
Qed.

(** ** Numbers *)

Lemma num_gt_true (x y : Q) : num_gt x y = true ↔ (y < x)%Q.
Proof.
  unfold num_gt. rewrite negb_true_iff, <- not_true_iff_false, Qle_bool_iff.
  split; [apply Qnot_le_lt | apply Qlt_not_le].
Qed.

Lemma num_gt_false (x y : Q) : num_gt x y = false ↔ (x <= y)%Q.
Proof. unfold num_gt. by rewrite negb_false_iff, Qle_bool_iff. Qed.

Lemma true_div_ok (x y : Z) :
  y ≠ 0 → true_div x y = Ok (inject_Z x / inject_Z y)%Q.
Proof. intros Hy. unfold true_div. by rewrite (proj2 (Z.eqb_neq y 0) Hy). Qed.

Lemma true_div_zero (x : Z) : true_div x 0 = Raise ZeroDivisionError.
Proof. done. Qed.

Lemma len_nonneg (s : gset string) : 0 <= len s.
Proof. unfold len. lia. Qed.

Lemma len_zero (s : gset string) : len s = 0 ↔ s = ∅.
Proof. unfold len. rewrite <- (leibniz_equiv_iff s ∅), <- size_empty_iff. lia. Qed.

Lemma len_pos (s : gset string) : s ≠ ∅ → 0 < len s.
Proof. intros Hs. pose proof (len_nonneg s). rewrite <- len_zero in Hs. lia. Qed.

Lemma quot_pos (a b : Z) : 0 < a → 0 < b → (0 < inject_Z a / inject_Z b)%Q.
Proof.
  intros Ha Hb. apply Qlt_shift_div_l.
  - change 0%Q with (inject_Z 0). by rewrite <- Zlt_Qlt.
  - rewrite Qmult_0_l. change 0%Q with (inject_Z 0). by rewrite <- Zlt_Qlt.
Qed.

Lemma quot_zero (b : Z) : (inject_Z 0 / inject_Z b == 0)%Q.
Proof. unfold Qdiv. apply Qmult_0_l. Qed.

Lemma quot_self (a : Z) : a ≠ 0 → (inject_Z a / inject_Z a == 1)%Q.
Proof.
  intros Ha. apply Qmult_inv_r. change 0%Q with (inject_Z 0).
  rewrite inject_Z_injective. done.
Qed.

(** ** Jaccard similarity *)

Lemma jaccard_pos (d t : gset string) : d ∩ t ≠ ∅ → (0 < jaccard d t)%Q.
Proof.
  intros Hne. unfold jaccard.
  assert (d ∪ t ≠ ∅) as Hu.
  { intros [-> _]%empty_union_L. apply Hne. apply intersection_empty_l_L. }
  apply quot_pos; by apply len_pos.
Qed.

Lemma jaccard_zero (d t : gset string) : d ∩ t = ∅ → (jaccard d t == 0)%Q.
Proof.
  intros He. unfold jaccard. rewrite He.
  replace (len ∅) with 0 by (symmetry; by apply len_zero). apply quot_zero.
Qed.

Lemma jaccard_not_pos (d t : gset string) : (jaccard d t <= 0)%Q → d ∩ t = ∅.
Proof.
  intros Hle. destruct (decide (d ∩ t = ∅)) as [|Hne]; [done|].
  apply jaccard_pos in Hne. exfalso. by apply (Qlt_not_le _ _ Hne).
Qed.

Lemma best_jaccard_step_defined (cc other : gset string) (bs : Q) (bo : gset string) :
  cc ∪ other ≠ ∅ →
  best_jaccard_step cc (bs, bo) other
  = if num_gt (jaccard cc other) bs then Ok (jaccard cc other, other) else Ok (bs, bo).
Proof.
  intros Hu. unfold best_jaccard_step. rewrite true_div_ok; [done|].
  by rewrite len_zero.
Qed.

(** Lines 45-51 compute the pair [best_of] describes, when no quotient has a
    zero divisor. *)
Lemma best_jaccard_spec (cc : gset string) (gt_ : list (gset string)) :
  (∀ t, t ∈ gt_ → cc ∪ t ≠ ∅) →
  ∃ b, best_jaccard cc gt_ = Ok b ∧ best_of cc gt_ b.
Proof.
  unfold best_jaccard. induction gt_ as [|x l IH] using rev_ind; intros Hdef.
  - exists (0%Q, ∅). split; [done|]. apply best_none. intros t Ht.
    by apply elem_of_nil in Ht.
  - destruct IH as (b & Hb & Hbest).
    { intros t Ht. apply Hdef. apply elem_of_app. by left. }
    rewrite for_each_snoc, Hb. simpl.
    assert (cc ∪ x ≠ ∅) as Hx.
    { apply Hdef. apply elem_of_app. right. by apply list_elem_of_singleton. }
    destruct Hbest as [Hnone | i t' Hi Hpos Hmax Hfirst];
      rewrite best_jaccard_step_defined by done.
    + destruct (num_gt (jaccard cc x) 0) eqn:Hgt.
      * apply num_gt_true in Hgt. eexists. split; [done|].
        apply (best_at cc (l ++ [x]) (length l) x); [|done| |].
        -- by rewrite lookup_app_r, Nat.sub_diag by lia.
        -- intros t [Ht | Ht%list_elem_of_singleton]%elem_of_app.
           ++ rewrite (jaccard_zero cc t) by auto. by apply Qlt_le_weak.
           ++ subst t. apply Qle_refl.
        -- intros j t Hj Hjt. rewrite lookup_app_l in Hjt by done.
           rewrite (jaccard_zero cc t); [done|].
           apply Hnone. by apply list_elem_of_lookup_2 in Hjt.
      * apply num_gt_false in Hgt. eexists. split; [done|].
        apply best_none.
        intros t [Ht | Ht%list_elem_of_singleton]%elem_of_app; [auto|].
        subst t. by apply jaccard_not_pos.
    + destruct (num_gt (jaccard cc x) (jaccard cc t')) eqn:Hgt.
      * apply num_gt_true in Hgt. eexists. split; [done|].
        apply (best_at cc (l ++ [x]) (length l) x).
        -- by rewrite lookup_app_r, Nat.sub_diag by lia.
        -- by apply (Qlt_trans _ (jaccard cc t')).
        -- intros t [Ht | Ht%list_elem_of_singleton]%elem_of_app.
           ++ apply (Qle_trans _ (jaccard cc t')); [auto | by apply Qlt_le_weak].
           ++ subst t. apply Qle_refl.
        -- intros j t Hj Hjt. rewrite lookup_app_l in Hjt by done.
           apply (Qle_lt_trans _ (jaccard cc t')); [|done].
           apply Hmax. by apply list_elem_of_lookup_2 in Hjt.
      * apply num_gt_false in Hgt. eexists. split; [done|].
        apply (best_at cc (l ++ [x]) i t'); [|done| |].
        -- apply lookup_app_l_Some. done.
        -- intros t [Ht | Ht%list_elem_of_singleton]%elem_of_app; [auto|].
           by subst t.
        -- intros j t Hj Hjt. apply (Hfirst j t Hj).
           rewrite lookup_app_l in Hjt; [done|].
           apply lookup_lt_Some in Hi. lia.
Qed.

Lemma union_nonempty_l (d t : gset string) : d ≠ ∅ → d ∪ t ≠ ∅.
Proof. intros Hd [-> _]%empty_union_L. done. Qed.

(** A detected class that shares nothing with any truth class is matched
    with the initial empty set. *)
Lemma score_detected_disjoint (gt_ : list (gset string)) (c : counters) (d : gset string) :
  (∀ t, t ∈ gt_ → d ∪ t ≠ ∅) →
  (∀ t, t ∈ gt_ → d ∩ t = ∅) →
  best_jaccard d gt_ = Ok (0%Q, ∅)
  ∧ score_detected gt_ c d = Ok {| tp := tp c; fp := fp c + len d; fn := fn c |}.
Proof.
  intros Hdef Hdisj.
  destruct (best_jaccard_spec d gt_ Hdef) as (b & Hb & Hbest).
  assert (b = (0%Q, ∅)) as ->.
  { destruct Hbest as [_ | i t' Hi Hpos _ _]; [done|]. exfalso.
    apply list_elem_of_lookup_2 in Hi.
    rewrite (jaccard_zero d t') in Hpos by auto. by apply (Qlt_irrefl 0). }
  split; [done|]. unfold score_detected. rewrite Hb. simpl.
  rewrite intersection_empty_r_L, difference_empty_L, difference_disjoint_L
    by apply disjoint_empty_l.
  replace (len ∅) with 0 by (symmetry; by apply len_zero).
  by rewrite !Z.add_0_r.
Qed.

(** On the exact quotients, a surviving detected class that shares a member
    with some truth class is matched with the first truth class of greatest
    Jaccard similarity. *)
Lemma best_match_exact (res gt_ : list (gset string)) (c : counters) (d : gset string) :
  subset_flag d res = false →
  (∃ t, t ∈ gt_ ∧ d ∩ t ≠ ∅) →
  ∃ (i : nat) (t' : gset string),
    gt_ !! i = Some t'
    ∧ (∀ t, t ∈ gt_ → (jaccard d t <= jaccard d t')%Q)
    ∧ (∀ j t, (j < i)%nat → gt_ !! j = Some t → (jaccard d t < jaccard d t')%Q)
    ∧ detected_body res gt_ c d
      = Ok {| tp := tp c + len (d ∩ t');
              fp := fp c + len (d ∖ t');
              fn := fn c + len (t' ∖ d) |}.
Proof.
  intros Hkeep (t0 & Ht0 & Hshare).
  assert (d ≠ ∅) as Hd.
  { intros ->. apply Hshare. apply intersection_empty_l_L. }
  destruct (best_jaccard_spec d gt_) as (b & Hb & Hbest).
  { intros t _. by apply union_nonempty_l. }
  destruct Hbest as [Hnone | i t' Hi Hpos Hmax Hfirst].
  - exfalso. apply Hshare. by apply Hnone.
  - exists i, t'. repeat split; [done..|].
    rewrite detected_body_keep by done. unfold score_detected. by rewrite Hb.
Qed.

(** ** Scores in binary64 *)

Lemma round_half_even_error (t : Q) :
  (inject_Z (round_half_even t) - t <= 1 # 2)%Q
  ∧ (t - inject_Z (round_half_even t) <= 1 # 2)%Q.
Proof.
  destruct t as [n d]. unfold round_half_even. simpl Qnum. simpl Qden.
  pose proof (Z.div_mod n (Zpos d) ltac:(lia)) as Hn.
  pose proof (Z.mod_pos_bound n (Zpos d) ltac:(lia)) as Hr.
  set (f := n / Zpos d) in *. set (r := n mod Zpos d) in *.
  assert (∀ m, - Zpos d <= 2 * (m * Zpos d - n) <= Zpos d →
               (inject_Z m - (n # d) <= 1 # 2)%Q ∧ ((n # d) - inject_Z m <= 1 # 2)%Q) as Hq.
  { intros m Hm. unfold Qle, Qminus, Qplus, Qopp, inject_Z. simpl. lia. }
  apply Hq.
  destruct (2 * r <? Zpos d) eqn:H1; [apply Z.ltb_lt in H1; lia|].
  apply Z.ltb_ge in H1.
  destruct (Zpos d <? 2 * r) eqn:H2; [apply Z.ltb_lt in H2; lia|].
  apply Z.ltb_ge in H2. destruct (Z.even f); lia.
Qed.

Lemma exponent_le_0 (q : Q) : (0 < q)%Q → (q <= 1)%Q → exponent q <= 0.
Proof.
  destruct q as [n d]. unfold Qlt, Qle. simpl. intros Hpos Hle.
  unfold exponent. simpl Qnum. simpl Qden.
  assert (Z.log2 (Z.abs n) <= Z.log2 (Zpos d)) by (apply Z.log2_le_mono; lia).
  destruct (Qle_bool _ _); lia.
Qed.

Lemma binary64_zero : binary64 0 = 0%Q.
Proof. reflexivity. Qed.

Lemma binary64_Qeq (x y : Q) : (x == y)%Q → binary64 x = binary64 y.
Proof. intros H. unfold binary64. by rewrite (Qred_complete x y H). Qed.

(** Between 0 and 1 a quotient and its binary64 number are at most 2^-53
    apart. *)
Lemma binary64_error (q : Q) :
  (0 <= q)%Q → (q <= 1)%Q →
  (q - (1 # 2 ^ 53) <= binary64 q)%Q ∧ (binary64 q <= q + (1 # 2 ^ 53))%Q.
Proof.
  intros H0 H1. unfold binary64.
  pose proof (Qred_correct q) as Hred. set (q' := Qred q) in *.
  destruct (Qeq_bool q' 0) eqn:Hz.
  - apply Qeq_bool_iff in Hz. rewrite Hz in Hred. rewrite <- Hred. split; by vm_compute.
  - assert (~ q' == 0)%Q as Hnz by (intros E; apply Qeq_bool_iff in E; congruence).
    assert (0 < q')%Q as Hpos.
    { rewrite Hred. apply Qle_lteq in H0 as [? | E]; [done|].
      exfalso. apply Hnz. by rewrite Hred, <- E. }
    assert (exponent q' <= 0) as He by (apply exponent_le_0; [done | by rewrite Hred]).
    set (e := Z.max (exponent q') (-1022)).
    assert (e - 52 <= -52) as He' by (unfold e; lia).
    set (ulp := (2 ^ (e - 52))%Q).
    assert (0 < ulp)%Q as Hulp by (by apply Qpower_0_lt).
    assert (ulp <= 1 # 2 ^ 52)%Q as Hulp'.
    { change (1 # 2 ^ 52)%Q with (2 ^ (-52))%Q. by apply Qpower_le_compat_l. }
    destruct (round_half_even_error (q' / ulp)) as [Hu Hl].
    set (m := inject_Z (round_half_even (q' / ulp))) in *.
    assert (q' / ulp * ulp == q')%Q as Hdiv.
    { field. intros E. rewrite E in Hulp. by apply Qlt_irrefl in Hulp. }
    assert ((m - q' / ulp) * ulp <= (1 # 2) * ulp)%Q as Hu'
      by (apply Qmult_le_compat_r; [done | by apply Qlt_le_weak]).
    assert ((q' / ulp - m) * ulp <= (1 # 2) * ulp)%Q as Hl'
      by (apply Qmult_le_compat_r; [done | by apply Qlt_le_weak]).
    assert ((m - q' / ulp) * ulp == m * ulp - q')%Q as E1 by (rewrite <- Hdiv at 2; ring).
    assert ((q' / ulp - m) * ulp == q' - m * ulp)%Q as E2 by (rewrite <- Hdiv at 2; ring).
    rewrite E1 in Hu'. rewrite E2 in Hl'. rewrite <- Hred.
    change (1 # 2 ^ 53)%Q with ((1 # 2) * (1 # 2 ^ 52))%Q.
    split; lra.
Qed.

(** Two different quotients of sizes below 2^26 are more than 2^-52 apart. *)
Lemma quotients_apart (a c : Z) (b d : positive) :
  Zpos b < 2 ^ 26 → Zpos d < 2 ^ 26 →
  (a # b < c # d)%Q → ((a # b) + (1 # 2 ^ 52) < c # d)%Q.
Proof.
  intros Hb Hd. unfold Qlt, Qplus. simpl. intros Hlt.
  assert (Zpos b * Zpos d < 2 ^ 52) as Hbd.
  { change (2 ^ 52) with (2 ^ 26 * 2 ^ 26). nia. }
  change (Z.pow_pos 2 52) with (2 ^ 52). nia.
Qed.

Lemma binary64_lt (a c : Z) (b d : positive) :
  0 <= a <= Zpos b → 0 <= c <= Zpos d →
  Zpos b < 2 ^ 26 → Zpos d < 2 ^ 26 →
  (a # b < c # d)%Q → (binary64 (a # b) < binary64 (c # d))%Q.
Proof.
  intros Ha Hc Hb Hd Hlt. pose proof (quotients_apart a c b d Hb Hd Hlt) as Hap.
  destruct (binary64_error (a # b)) as [_ Hx]; [unfold Qle; simpl; lia..|].
  destruct (binary64_error (c # d)) as [Hy _]; [unfold Qle; simpl; lia..|].
  change (2 ^ 52)%positive with 4503599627370496%positive in Hap.
  change (2 ^ 53)%positive with 9007199254740992%positive in Hx, Hy.
  lra.
Qed.

Lemma num_gt_Qeq (x x' y y' : Q) :
  (x == x')%Q → (y == y')%Q → num_gt x y = num_gt x' y'.
Proof. intros Hx Hy. unfold num_gt. by rewrite (Qleb_comp x x' Hx y y' Hy). Qed.

(** On quotients of sizes below 2^26 the order of the binary64 numbers is the
    order of the quotients: [>] decides alike on both. *)
Lemma binary64_num_gt (x y : Q) :
  small_quotient x → small_quotient y →
  num_gt (binary64 x) (binary64 y) = num_gt x y.
Proof.
  intros (a & b & Ha & Hb & Hx) (c & d & Hc & Hd & Hy).
  rewrite (binary64_Qeq x _ Hx), (binary64_Qeq y _ Hy), (num_gt_Qeq x (a # b) y (c # d)) by done.
  unfold num_gt. f_equal.
  destruct (Qle_bool (a # b) (c # d)) eqn:Hle.
  - apply Qle_bool_iff in Hle. apply Qle_bool_iff.
    apply Qle_lteq in Hle as [Hlt | Heq].
    + apply Qlt_le_weak. by apply binary64_lt.
    + rewrite (binary64_Qeq _ _ Heq). apply Qle_refl.
  - apply not_true_iff_false. rewrite Qle_bool_iff. intros Hb64.
    apply not_true_iff_false in Hle. rewrite Qle_bool_iff in Hle.
    apply Qnot_le_lt in Hle. apply (binary64_lt c a d b) in Hle; [|done..].
    by apply (Qlt_not_le _ _ Hle).
Qed.

Lemma small_quotient_zero : small_quotient 0.
Proof. exists 0, 1%positive. repeat split; done. Qed.

Lemma jaccard_small (d t : gset string) :
  0 < len (d ∪ t) < 2 ^ 26 → small_quotient (jaccard d t).
Proof.
  intros [Hpos Hlt]. unfold jaccard.
  assert (0 <= len (d ∩ t) <= len (d ∪ t)) as Hi.
  { split; [apply len_nonneg|]. unfold len.
    assert (d ∩ t ⊆ d ∪ t) as Hsub.
    { transitivity d; [apply intersection_subseteq_l | apply union_subseteq_l]. }
    pose proof (subseteq_size _ _ Hsub). lia. }
  destruct (len (d ∪ t)) as [|p|p] eqn:Hp; [lia| |lia].
  exists (len (d ∩ t)), p. repeat split; [lia..|].
  symmetry. apply Qmake_Qdiv.
Qed.

Lemma best_jaccard_step64_defined (cc other : gset string) (bs : Q) (bo : gset string) :
  cc ∪ other ≠ ∅ →
  best_jaccard_step64 cc (bs, bo) other
  = if num_gt (binary64 (jaccard cc other)) bs
    then Ok (binary64 (jaccard cc other), other)
    else Ok (bs, bo).
Proof.
  intros Hu. unfold best_jaccard_step64, true_div64.
  rewrite (proj2 (Z.eqb_neq (len (cc ∪ other)) 0)); [done|]. by rewrite len_zero.
Qed.

(** On classes of fewer than 2^26 members the loop of lines 46-51 keeps the
    same class whether the scores are the exact quotients or their binary64
    numbers. *)
Lemma best_jaccard64_steps (d : gset string) (l : list (gset string))
    (bs : Q) (bo : gset string) :
  small_quotient bs →
  (∀ t, t ∈ l → 0 < len (d ∪ t) < 2 ^ 26) →
  ∃ bs' bo',
    for_each (best_jaccard_step d) l (bs, bo) = Ok (bs', bo')
    ∧ for_each (best_jaccard_step64 d) l (binary64 bs, bo) = Ok (binary64 bs', bo').
Proof.
  revert bs bo. induction l as [|t l IH]; intros bs bo Hbs Hl.
  - by exists bs, bo.
  - assert (0 < len (d ∪ t) < 2 ^ 26) as Ht by (apply Hl; left).
    assert (d ∪ t ≠ ∅) as Hu by (rewrite <- len_zero; lia).
    rewrite !for_each_cons, best_jaccard_step_defined, best_jaccard_step64_defined by done.
    rewrite binary64_num_gt by (by try apply jaccard_small).
    destruct (num_gt (jaccard d t) bs); rewrite !bind_Ok; apply IH;
      try (by apply jaccard_small); try done;
      intros t' Ht'; apply Hl; by right.
Qed.

Lemma score_detected64_small (gt_ : list (gset string)) (c : counters) (d : gset string) :
  (∀ t, t ∈ gt_ → 0 < len (d ∪ t) < 2 ^ 26) →
  score_detected64 gt_ c d = score_detected gt_ c d.
Proof.
  intros Hl.
  destruct (best_jaccard64_steps d gt_ 0 ∅ small_quotient_zero Hl) as (bs & bo & He & H64).
  unfold score_detected64, score_detected, best_jaccard64, best_jaccard.
  change (0%Q, (∅ : gset string)) with (binary64 0, (∅ : gset string)) at 1.
  by rewrite He, H64.
Qed.

(** Beyond that size two different scores may be one binary64 number, and
    the first class is kept though the second has the greater quotient: so it
    is for a class of 94911151 members against the class less one member and
    the class with one member more. *)
Lemma best_jaccard64_tie (d t1 t2 : gset string) :
  len (d ∩ t1) = 94911150 → len (d ∪ t1) = 94911151 →
  len (d ∩ t2) = 94911151 → len (d ∪ t2) = 94911152 →
  (jaccard d t1 < jaccard d t2)%Q
  ∧ ∃ bs, best_jaccard64 d [t1; t2] = Ok (bs, t1).
Proof.
  intros Hi1 Hu1 Hi2 Hu2. split.
  - unfold jaccard. rewrite Hi1, Hu1, Hi2, Hu2. by vm_compute.
  - unfold best_jaccard64. rewrite for_each_cons.
    rewrite best_jaccard_step64_defined by (rewrite <- len_zero; lia).
    unfold jaccard. rewrite Hi1, Hu1.
    assert (num_gt (binary64 (inject_Z 94911150 / inject_Z 94911151)) 0 = true) as ->
      by (by vm_compute).
    rewrite bind_Ok, for_each_singleton.
    rewrite best_jaccard_step64_defined by (rewrite <- len_zero; lia).
    unfold jaccard. rewrite Hi2, Hu2.
    assert (num_gt (binary64 (inject_Z 94911151 / inject_Z 94911152))
                   (binary64 (inject_Z 94911150 / inject_Z 94911151)) = false) as ->
      by (by vm_compute).
    by eexists.
Qed.

(** C1, as the code has it: a surviving detected class [d] that shares a
    member with some truth class, its union with each truth class having
    fewer than 2^26 members, is matched with the truth class [t'] of greatest
    Jaccard similarity, the first such one in the order of [gt_], and the
    counters grow by [|d ∩ t'|], [|d \ t'|] and [|t' \ d|] - with the scores
    in binary64 as the script holds them, and with the exact quotients. *)
Theorem best_match_scoring (res gt_ : list (gset string)) (c : counters) (d : gset string) :
  subset_flag d res = false →
  (∀ t, t ∈ gt_ → len (d ∪ t) < 2 ^ 26) →
  (∃ t, t ∈ gt_ ∧ d ∩ t ≠ ∅) →
  ∃ (i : nat) (t' : gset string),
    gt_ !! i = Some t'
    ∧ (∀ t, t ∈ gt_ → (jaccard d t <= jaccard d t')%Q)
    ∧ (∀ j t, (j < i)%nat → gt_ !! j = Some t → (jaccard d t < jaccard d t')%Q)
    ∧ detected_body64 res gt_ c d
      = Ok {| tp := tp c + len (d ∩ t');
              fp := fp c + len (d ∖ t');
              fn := fn c + len (t' ∖ d) |}
    ∧ detected_body res gt_ c d
      = Ok {| tp := tp c + len (d ∩ t');
              fp := fp c + len (d ∖ t');
              fn := fn c + len (t' ∖ d) |}.
Proof.
  intros Hkeep Hsmall Hshare.
  assert (d ≠ ∅) as Hd.
  { destruct Hshare as (t0 & _ & Hne). intros ->. apply Hne.
    apply intersection_empty_l_L. }
  destruct (best_match_exact res gt_ c d Hkeep Hshare)
    as (i & t' & Hi & Hmax & Hfirst & Hbody).
  exists i, t'. repeat split; [done..| |done].
  unfold detected_body64. rewrite Hkeep. rewrite score_detected64_small.
  - by rewrite <- (detected_body_keep res gt_ c d Hkeep).
  - intros t Ht. split; [|by apply Hsmall].
    apply len_pos. by apply union_nonempty_l.
Qed.

(** C10: a surviving detected class whose Jaccard similarity with every
    truth class is zero is matched with the initial empty set: [fp] grows by
    [|d|], [tp] and [fn] stay as they are. *)
Theorem unmatched_detected_scoring (res gt_ : list (gset string)) (c : counters)
    (d : gset string) :
  subset_flag d res = false →
  (∀ t, t ∈ gt_ →
     ∃ q, true_div (len (d ∩ t)) (len (d ∪ t)) = Ok q ∧ (q == 0)%Q) →
  best_jaccard d gt_ = Ok (0%Q, ∅)
  ∧ detected_body res gt_ c d
    = Ok {| tp := tp c; fp := fp c + len d; fn := fn c |}.
Proof.
  intros Hkeep Hzero. rewrite detected_body_keep by done.
  assert (∀ t, t ∈ gt_ → d ∪ t ≠ ∅) as Hdef.
  { intros t Ht Hu. destruct (Hzero t Ht) as (q & Hq & _).
    rewrite Hu in Hq. replace (len ∅) with 0 in Hq by (symmetry; by apply len_zero).
    by rewrite true_div_zero in Hq. }
  apply score_detected_disjoint; [done|].
  intros t Ht. destruct (Hzero t Ht) as (q & Hq & Hq0).
  rewrite true_div_ok in Hq by (rewrite len_zero; auto).
  apply jaccard_not_pos. unfold jaccard. injection Hq as ->.
  rewrite Hq0. apply Qle_refl.
Qed.

(** ** Intersection size *)

Lemma num_gt_inject_Z (a b : Z) : num_gt (inject_Z a) (inject_Z b) = (b <? a).
Proof.
  destruct (b <? a) eqn:Hlt.
  - apply num_gt_true. rewrite <- Zlt_Qlt. by apply Z.ltb_lt.
  - apply num_gt_false. rewrite <- Zle_Qle. apply Z.ltb_ge in Hlt. lia.
Qed.

Lemma num_eq_inject_Z (a : Z) : num_eq (inject_Z a) 0 = (a =? 0).
Proof.
  unfold num_eq. destruct (a =? 0) eqn:Ha.
  - apply Z.eqb_eq in Ha. by subst a.
  - apply not_true_iff_false. rewrite Qeq_bool_iff. change 0%Q with (inject_Z 0).
    rewrite inject_Z_injective. by apply Z.eqb_neq.
Qed.

Lemma best_overlap_step_eq (cc other : gset string) (m : Z) (bo : gset string) :
  best_overlap_step cc (inject_Z m, bo) other
  = if m <? len (cc ∩ other)
    then Ok (inject_Z (len (cc ∩ other)), other)
    else Ok (inject_Z m, bo).
Proof. unfold best_overlap_step. by rewrite num_gt_inject_Z. Qed.

(** Lines 62-66 compute the pair [overlap_of] describes. *)
Lemma best_overlap_spec (cc : gset string) (res : list (gset string)) :
  ∃ b, best_overlap cc res = Ok (inject_Z b.1, b.2) ∧ overlap_of cc res b.
Proof.
  unfold best_overlap. induction res as [|x l IH] using rev_ind.
  - exists (0, ∅). split; [done|]. apply overlap_none. intros r Hr.
    by apply elem_of_nil in Hr.
  - destruct IH as (b & Hb & Hbest).
    rewrite for_each_snoc, Hb, bind_Ok, best_overlap_step_eq.
    pose proof (len_nonneg (cc ∩ x)) as Hx.
    destruct Hbest as [Hnone | i r' Hi Hpos Hmax Hfirst]; simpl.
    + destruct (0 <? len (cc ∩ x)) eqn:Hlt.
      * apply Z.ltb_lt in Hlt. eexists (_, _). split; [done|].
        apply (overlap_at cc (l ++ [x]) (length l) x); [|done| |].
        -- by rewrite lookup_app_r, Nat.sub_diag by lia.
        -- intros r [Hr | Hr%list_elem_of_singleton]%elem_of_app.
           ++ rewrite (Hnone r Hr). lia.
           ++ subst r. lia.
        -- intros j r Hj Hjr. rewrite lookup_app_l in Hjr by done.
           rewrite (Hnone r); [done|]. by apply list_elem_of_lookup_2 in Hjr.
      * apply Z.ltb_ge in Hlt. eexists (_, _). split; [done|].
        apply overlap_none.
        intros r [Hr | Hr%list_elem_of_singleton]%elem_of_app; [auto|].
        subst r. lia.
    + destruct (len (cc ∩ r') <? len (cc ∩ x)) eqn:Hlt.
      * apply Z.ltb_lt in Hlt. eexists (_, _). split; [done|].
        apply (overlap_at cc (l ++ [x]) (length l) x).
        -- by rewrite lookup_app_r, Nat.sub_diag by lia.
        -- lia.
        -- intros r [Hr | Hr%list_elem_of_singleton]%elem_of_app.
           ++ specialize (Hmax r Hr). lia.
           ++ subst r. lia.
        -- intros j r Hj Hjr. rewrite lookup_app_l in Hjr by done.
           apply list_elem_of_lookup_2 in Hjr. specialize (Hmax r Hjr). lia.
      * apply Z.ltb_ge in Hlt. eexists (_, _). split; [done|].
        apply (overlap_at cc (l ++ [x]) i r'); [|done| |].
        -- by apply lookup_app_l_Some.
        -- intros r [Hr | Hr%list_elem_of_singleton]%elem_of_app; [auto|].
           by subst r.
        -- intros j r Hj Hjr. apply (Hfirst j r Hj).
           rewrite lookup_app_l in Hjr; [done|].
           apply lookup_lt_Some in Hi. lia.
Qed.

(** C3: for a surviving truth class [t] the second loop finds the greatest
    intersection size [m] of [t] with a detected class; when [m] is zero
    [fn] grows by [|t|], and when [m] is positive no counter changes. *)
Theorem unmatched_truth_scoring (res gt_ : list (gset string)) (c : counters)
    (t : gset string) :
  subset_flag t gt_ = false →
  ∃ (m : Z) (r' : gset string),
    best_overlap t res = Ok (inject_Z m, r')
    ∧ (∀ r, r ∈ res → len (t ∩ r) <= m)
    ∧ (m = 0 ∨ 0 < m ∧ r' ∈ res ∧ len (t ∩ r') = m)
    ∧ truth_body res gt_ c t
      = if m =? 0
        then Ok {| tp := tp c; fp := fp c; fn := fn c + len t |}
        else Ok c.
Proof.
  intros Hkeep. destruct (best_overlap_spec t res) as ([m r'] & Hb & Hbest).
  simpl in Hb. exists m, r'. split; [done|].
  assert (truth_body res gt_ c t
          = if m =? 0
            then Ok {| tp := tp c; fp := fp c; fn := fn c + len t |}
            else Ok c) as Hbody.
  { rewrite truth_body_keep by done. unfold score_truth.
    by rewrite Hb, bind_Ok, num_eq_inject_Z. }
  inversion Hbest as [Hnone | i r0 Hi Hpos Hmax Hfirst]; subst.
  - split; [|split; [by left | done]].
    intros r Hr. by rewrite (Hnone r Hr).
  - split; [done|]. split; [|done]. right. split; [done|].
    split; [|done]. by apply list_elem_of_lookup_2 in Hi.
Qed.

(** ** The derived figures *)

(** C5: when [tp + fp] or [tp + fn] is zero, lines 69-71 raise
    [ZeroDivisionError]; no figure is produced, and so does the run. *)
Theorem degenerate_counters_raise (res gt_ : list (gset string)) (c : counters) :
  count res gt_ = Ok c →
  tp c + fp c = 0 ∨ tp c + fn c = 0 →
  derive c = Raise ZeroDivisionError
  ∧ scorer res gt_ = Raise ZeroDivisionError.
Proof.
  intros Hcount Hzero.
  assert (derive c = Raise ZeroDivisionError) as Hderive.
  { unfold derive. destruct (decide (tp c + fp c = 0)) as [-> | Hp]; [done|].
    rewrite (true_div_ok (tp c) (tp c + fp c)), bind_Ok by done.
    destruct Hzero as [Hz | Hz]; [by apply Hp in Hz|].
    rewrite Hz. reflexivity. }
  split; [done|]. unfold scorer. by rewrite Hcount, bind_Ok, Hderive.
Qed.

Lemma derive_all_true_positives (n : Z) :
  n ≠ 0 →
  ∃ f, derive {| tp := n; fp := 0; fn := 0 |} = Ok f
       ∧ (precision f == 1)%Q ∧ (recall f == 1)%Q ∧ (fscore f == 1)%Q.
Proof.
  intros Hn. unfold derive. simpl. rewrite !Z.add_0_r.
  rewrite !true_div_ok, !bind_Ok by lia. eexists. split; [done|]. simpl.
  repeat split; apply quot_self; lia.
Qed.


(** ** A class against itself *)

Lemma survivors_singleton (c : gset string) : survivors [c] = [c].
Proof.
  unfold survivors. rewrite filter_cons_True; [done|].
  apply subset_flag_false. intros s ->%list_elem_of_singleton [_ Hn]. by apply Hn.
Qed.

Lemma score_detected_self (c : gset string) :
  c ≠ ∅ →
  score_detected [c] {| tp := 0; fp := 0; fn := 0 |} c
  = Ok {| tp := len c; fp := 0; fn := 0 |}.
Proof.
  intros Hc.
  assert (best_jaccard c [c] = Ok (jaccard c c, c)) as Hbest.
  { unfold best_jaccard.
    rewrite for_each_singleton, best_jaccard_step_defined by (by apply union_nonempty_l).
    assert (num_gt (jaccard c c) 0 = true) as ->; [|done].
    apply num_gt_true, jaccard_pos. by rewrite intersection_idemp_L. }
  unfold score_detected. rewrite Hbest, bind_Ok.
  rewrite intersection_idemp_L, difference_diag_L. simpl.
  replace (len ∅) with 0 by (symmetry; by apply len_zero). done.
Qed.

Lemma score_truth_self (c : gset string) (n : counters) :
  c ≠ ∅ → score_truth [c] n c = Ok n.
Proof.
  intros Hc. pose proof (len_pos c Hc) as Hlen.
  assert (best_overlap c [c] = Ok (inject_Z (len c), c)) as Hover.
  { unfold best_overlap.
    change (0%Q, (∅ : gset string)) with (inject_Z 0, (∅ : gset string)).
    rewrite for_each_singleton, best_overlap_step_eq, intersection_idemp_L.
    by rewrite (proj2 (Z.ltb_lt 0 (len c)) Hlen). }
  unfold score_truth. rewrite Hover, bind_Ok, num_eq_inject_Z.
  by rewrite (proj2 (Z.eqb_neq (len c) 0)) by lia.
Qed.

Lemma count_self (c : gset string) :
  c ≠ ∅ → count [c] [c] = Ok {| tp := len c; fp := 0; fn := 0 |}.
Proof.
  intros Hc. rewrite count_survivors, survivors_singleton, for_each_singleton.
  by rewrite score_detected_self, bind_Ok, for_each_singleton, score_truth_self.
Qed.

(** C8: a non-empty class compared with itself gives [tp = |c|], no false
    positive, no false negative, and the three figures equal to one. *)
Theorem self_comparison (c : gset string) :
  c ≠ ∅ →
  ∃ f, scorer [c] [c] = Ok ({| tp := len c; fp := 0; fn := 0 |}, f)
       ∧ (precision f == 1)%Q ∧ (recall f == 1)%Q ∧ (fscore f == 1)%Q.
Proof.
  intros Hc. pose proof (len_pos c Hc) as Hlen.
  destruct (derive_all_true_positives (len c)) as (f & Hf & Hfig); [lia|].
  exists f. split; [|done].
  unfold scorer. by rewrite count_self, bind_Ok, Hf by done.
Qed.

(** ** Collections that share nothing *)

Lemma exists_largest (l : list (gset string)) :
  l ≠ [] → ∃ x, x ∈ l ∧ ∀ y, y ∈ l → (size y ≤ size x)%nat.
Proof.
  induction l as [|a l IH]; [done|]. intros _.
  destruct l as [|b l].
  - exists a. split; [left|]. by intros y ->%list_elem_of_singleton.
  - destruct IH as (x & Hx & Hmax); [done|].
    destruct (decide (size x ≤ size a)%nat) as [Hle | Hgt].
    + exists a. split; [left|]. intros y [-> | Hy]%elem_of_cons; [done|].
      specialize (Hmax y Hy). lia.
    + exists x. split; [by right|]. intros y [-> | Hy]%elem_of_cons; [lia | auto].
Qed.




Lemma score_truth_disjoint (res : list (gset string)) (c : counters) (t : gset string) :
  (∀ r, r ∈ res → t ∩ r = ∅) →
  score_truth res c t = Ok {| tp := tp c; fp := fp c; fn := fn c + len t |}.
Proof.
  intros Hdisj. destruct (best_overlap_spec t res) as (b & Hb & Hbest).
  unfold score_truth. rewrite Hb, bind_Ok, num_eq_inject_Z.
  destruct Hbest as [_ | i r' Hi Hpos _ _]; [done|]. exfalso.
  apply list_elem_of_lookup_2 in Hi. rewrite (Hdisj r' Hi) in Hpos.
  replace (len ∅) with 0 in Hpos by (symmetry; by apply len_zero). lia.
Qed.




(** ** Name comparison *)

Import Compare.

Lemma after_dot_Some (s r : string) (i : Z) :
  after_dot s = Some r →
  contains "." s = true
  ∧ ∃ n : nat, find_from "." s i = i + Z.of_nat n ∧ drop (S n) s = r.
Proof.
  revert i. induction s as [|x s IH]; intros i; simpl; [done|].
  destruct (Ascii.eqb x ".") eqn:Hx; simpl.
  - intros [= ->]. split; [done|]. exists 0%nat. split; [lia|done].
  - intros Hs. destruct (IH (i + 1) Hs) as (Hc & n & Hf & Hd).
    split; [done|]. exists (S n). split; [lia|done].
Qed.

Lemma after_dot_None (s : string) : after_dot s = None → contains "." s = false.
Proof.
  induction s as [|x s IH]; simpl; [done|].
  destruct (Ascii.eqb x "."); [done | apply IH].
Qed.

(** Lines 40-43 strip the prefix that ends at the first dot. *)
Lemma strip_unprefixed (a : string) : strip a = unprefixed a.
Proof.
  unfold strip, unprefixed. destruct (after_dot a) as [r|] eqn:Ha; simpl.
  - destruct (after_dot_Some a r 0 Ha) as (-> & n & Hf & Hd).
    unfold find, slice_from. rewrite Hf.
    rewrite (proj2 (Z.ltb_ge _ _)) by lia.
    by replace (Z.to_nat (0 + Z.of_nat n + 1)) with (S n) by lia.
  - by rewrite after_dot_None.
Qed.

(** Lines 44-45 put the pair in lexicographic order. *)
Lemma swap_ordered (a b : string) :
  (if String.ltb b a then (b, a) else (a, b)) = ordered a b.
Proof.
  unfold String.ltb, ordered. rewrite (String.compare_antisym a b).
  by destruct (String.compare b a).
Qed.

Lemma ordered_sorted (a b : string) :
  String.leb (ordered a b).1 (ordered a b).2 = true.
Proof.
  unfold ordered, String.leb. destruct (String.compare a b) eqn:Hab; simpl.
  - by rewrite Hab.
  - by rewrite Hab.
  - by rewrite String.compare_antisym, Hab.
Qed.

Lemma unprefixed_no_dot (a : string) : contains "." a = false → unprefixed a = a.
Proof.
  intros Ha. unfold unprefixed. destruct (after_dot a) as [r|] eqn:Hr; [|done].
  destruct (after_dot_Some a r 0 Hr) as [Hc _]. by rewrite Hc in Ha.
Qed.

Lemma unprefixed_dot (p r : string) :
  contains "." p = false → unprefixed (p ++ String "." r) = r.
Proof.
  intros Hp. unfold unprefixed.
  assert (after_dot (p ++ String "." r) = Some r) as ->; [|done].
  induction p as [|x p IH]; simpl in *; [done|].
  apply orb_false_iff in Hp as [-> Hp]. by apply IH.
Qed.

Lemma ordered_same (a : string) : ordered a a = (a, a).
Proof. unfold ordered. by destruct (String.compare a a). Qed.

Lemma ordered_cases (a b : string) : ordered a b = (a, b) ∨ ordered a b = (b, a).
Proof. unfold ordered. destruct (String.compare a b); auto. Qed.

Lemma search_found (groups : list (gset string)) (a b : string)
    (correct_set wrong_set : gset (string * string)) :
  (∃ g, g ∈ groups ∧ a ∈ g ∧ b ∈ g) →
  search groups a b correct_set wrong_set = (correct_set ∪ {[ (a, b) ]}, wrong_set).
Proof.
  induction groups as [|g0 groups IH]; intros (g & Hg & Ha & Hb); simpl.
  - by apply elem_of_nil in Hg.
  - destruct (bool_decide (a ∈ g0) && bool_decide (b ∈ g0)) eqn:Hboth; [done|].
    apply IH. exists g. split; [|done].
    apply elem_of_cons in Hg as [-> | Hg]; [|done].
    by rewrite !bool_decide_eq_true_2 in Hboth.
Qed.

Lemma search_missed (groups : list (gset string)) (a b : string)
    (correct_set wrong_set : gset (string * string)) :
  ¬ (∃ g, g ∈ groups ∧ a ∈ g ∧ b ∈ g) →
  search groups a b correct_set wrong_set = (correct_set, wrong_set ∪ {[ (a, b) ]}).
Proof.
  induction groups as [|g0 groups IH]; intros Hno; simpl; [done|].
  destruct (bool_decide (a ∈ g0) && bool_decide (b ∈ g0)) eqn:Hboth.
  - exfalso. apply andb_true_iff in Hboth as [Ha%bool_decide_eq_true Hb%bool_decide_eq_true].
    apply Hno. exists g0. split; [left | done].
  - apply IH. intros (g & Hg & Hab). apply Hno. exists g. split; [by right | done].
Qed.

Lemma same_clone_pair_sym (a b : string) : same_clone_pair a b → same_clone_pair b a.
Proof.
  intros [[-> Hm] | (g & Hg & Ha & Hb)]; [by left|]. right. by exists g.
Qed.

Lemma compare_unfold (a b : string) (correct_set wrong_set : gset (string * string)) :
  compare a b correct_set wrong_set
  = let '(lo, hi) := ordered (unprefixed a) (unprefixed b) in
    if String.eqb lo hi && negb (String.eqb lo "main")
    then (correct_set ∪ {[ (lo, hi) ]}, wrong_set)
    else search jointp lo hi correct_set wrong_set.
Proof. unfold compare. by rewrite !strip_unprefixed, swap_ordered. Qed.

(** C4: [compare] strips both names, orders the pair, and adds it to
    [correct_set] exactly when the stripped names are the same clone pair -
    equal and not [main], or together in one Known Equivalence Group - and to
    [wrong_set] otherwise; [x.main] against [y.main] goes to [wrong_set]. *)
Theorem compare_classification (a b : string)
    (correct_set wrong_set : gset (string * string)) :
  (same_clone_pair (unprefixed a) (unprefixed b) →
   compare a b correct_set wrong_set
   = (correct_set ∪ {[ ordered (unprefixed a) (unprefixed b) ]}, wrong_set))
  ∧ (¬ same_clone_pair (unprefixed a) (unprefixed b) →
     compare a b correct_set wrong_set
     = (correct_set, wrong_set ∪ {[ ordered (unprefixed a) (unprefixed b) ]}))
  ∧ compare "x.main" "y.main" correct_set wrong_set
    = (correct_set, wrong_set ∪ {[ ("main", "main") ]}).
Proof.
  assert (∀ a b,
    (same_clone_pair (unprefixed a) (unprefixed b) →
     compare a b correct_set wrong_set
     = (correct_set ∪ {[ ordered (unprefixed a) (unprefixed b) ]}, wrong_set))
    ∧ (¬ same_clone_pair (unprefixed a) (unprefixed b) →
       compare a b correct_set wrong_set
       = (correct_set, wrong_set ∪ {[ ordered (unprefixed a) (unprefixed b) ]})))
    as Hgen.
  { clear a b. intros a b. rewrite compare_unfold.
    set (a' := unprefixed a). set (b' := unprefixed b).
    assert (∀ lo hi, ordered a' b' = (lo, hi) →
              (same_clone_pair a' b' ↔ same_clone_pair lo hi)) as Hsame.
    { intros lo hi Ho. destruct (ordered_cases a' b') as [Hc | Hc];
        rewrite Hc in Ho; injection Ho as <- <-; [done|].
      split; apply same_clone_pair_sym. }
    destruct (ordered a' b') as [lo hi] eqn:Ho. specialize (Hsame lo hi eq_refl).
    rewrite Hsame.
    destruct (String.eqb lo hi && negb (String.eqb lo "main")) eqn:Heq.
    - apply andb_true_iff in Heq as [Hlh%String.eqb_eq Hm%negb_true_iff].
      apply String.eqb_neq in Hm. split; [done|]. intros Hno. exfalso.
      apply Hno. by left.
    - split.
      + intros [[-> Hm] | Hgroup]; [|by apply search_found]. exfalso.
        rewrite (proj2 (String.eqb_eq hi hi) eq_refl) in Heq.
        by rewrite (proj2 (String.eqb_neq hi "main") Hm) in Heq.
      + intros Hno. apply search_missed. intros Hgroup. apply Hno. by right. }
  destruct (Hgen a b) as [Hyes Hno]. split; [done|]. split; [done|].
  destruct (Hgen "x.main" "y.main") as [_ Hmain]. apply Hmain.
  change (unprefixed "x.main") with "main". change (unprefixed "y.main") with "main".
  intros [[_ Hm] | (g & Hg & Ha & _)]; [done|].
  assert (Forall (fun g : gset string => "main" ∉ g) jointp) as Hall.
  { apply (bool_decide_unpack _). vm_compute. exact I. }
  rewrite Forall_forall in Hall. by apply (Hall g Hg).
Qed.

Open Scope string_scope.
Open Scope Z_scope.

Example scenario_counts :
  Metrics.count [ {[ "A"; "B" ]}; {[ "A" ]} ] [ {[ "A"; "B"; "C" ]} ]
  = Ok (Metrics.Counters 2 0 1).
Proof. vm_compute. reflexivity. Qed.

Example compare_foo :
  compare "a.foo" "b.foo" ∅ ∅ = ({[ ("foo", "foo") ]}, ∅).
Proof. vm_compute. reflexivity. Qed.

Example compare_sha :
  compare "a.md5_finish_ctx" "b.sha1_finish_ctx" ∅ ∅
  = ({[ ("md5_finish_ctx", "sha1_finish_ctx") ]}, ∅).
Proof. vm_compute. reflexivity. Qed.

(** C2, as the specification words it, fails on two classes of equal value:
    each is contained in the other, which is at a different position, and
    neither is discarded. *)
Lemma subsumption_filter_keeps_equal_classes :
  let coll : list (gset string) := [ {[ "A" ]}; {[ "A" ]} ] in
  ¬ (∀ (i j : nat) (ci cj : gset string),
       i ≠ j → coll !! i = Some ci → coll !! j = Some cj → ci ⊆ cj →
       subset_flag ci coll = true).
Proof.
  intros coll H.
  specialize (H 0%nat 1%nat {[ "A" ]} {[ "A" ]}).
  assert (subset_flag {[ "A" ]} coll = false) as Hf by (vm_compute; reflexivity).
  rewrite H in Hf; done.
Qed.

Lemma subsumption_filter_strict_witness :
  detected_body [ {[ "A"; "B" ]}; {[ "A" ]} ] [ {[ "A"; "B"; "C" ]} ]
    (Counters 0 0 0) {[ "A" ]} = Ok (Counters 0 0 0).
Proof.
  apply (subsumption_filter_strict
           [ {[ "A"; "B" ]}; {[ "A" ]} ] [ {[ "A"; "B"; "C" ]} ]
           {[ "A" ]} (Counters 0 0 0)).
  vm_compute. reflexivity.
Defined.

(** C1, as the specification words it, fails on a detected class that shares
    nothing with the truth classes: no truth class is selected, and [fn]
    does not grow by the size of one. *)
Lemma best_match_may_be_no_truth_class :
  let d : gset string := {[ "A" ]} in
  let res := [ d ] in
  let gt_ : list (gset string) := [ {[ "B" ]} ] in
  let c := Counters 0 0 0 in
  subset_flag d res = false
  ∧ ¬ (∃ t', t' ∈ gt_
         ∧ (∀ t, t ∈ gt_ → (jaccard d t <= jaccard d t')%Q)
         ∧ detected_body res gt_ c d
           = Ok {| tp := tp c + len (d ∩ t');
                   fp := fp c + len (d ∖ t');
                   fn := fn c + len (t' ∖ d) |}).
Proof.
  intros d res gt_ c. split; [vm_compute; reflexivity|].
  intros (t' & Ht' & _ & Hbody).
  apply list_elem_of_singleton in Ht'. subst t'.
  vm_compute in Hbody. discriminate Hbody.
Qed.

Lemma best_match_scoring_witness :
  ∃ (i : nat) (t' : gset string),
    [ ({[ "B" ]} : gset string); {[ "A"; "B"; "C" ]} ] !! i = Some t'
    ∧ (∀ t, t ∈ [ ({[ "B" ]} : gset string); {[ "A"; "B"; "C" ]} ] →
         (jaccard {[ "A"; "B" ]} t <= jaccard {[ "A"; "B" ]} t')%Q)
    ∧ (∀ j t, (j < i)%nat →
         [ ({[ "B" ]} : gset string); {[ "A"; "B"; "C" ]} ] !! j = Some t →
         (jaccard {[ "A"; "B" ]} t < jaccard {[ "A"; "B" ]} t')%Q)
    ∧ detected_body64 [ {[ "A"; "B" ]}; {[ "A" ]} ]
        [ {[ "B" ]}; {[ "A"; "B"; "C" ]} ] (Counters 0 0 0) {[ "A"; "B" ]}
      = Ok {| tp := 0 + len ({[ "A"; "B" ]} ∩ t');
              fp := 0 + len ({[ "A"; "B" ]} ∖ t');
              fn := 0 + len (t' ∖ {[ "A"; "B" ]}) |}
    ∧ detected_body [ {[ "A"; "B" ]}; {[ "A" ]} ]
        [ {[ "B" ]}; {[ "A"; "B"; "C" ]} ] (Counters 0 0 0) {[ "A"; "B" ]}
      = Ok {| tp := 0 + len ({[ "A"; "B" ]} ∩ t');
              fp := 0 + len ({[ "A"; "B" ]} ∖ t');
              fn := 0 + len (t' ∖ {[ "A"; "B" ]}) |}.
Proof.
  apply (best_match_scoring
           [ {[ "A"; "B" ]}; {[ "A" ]} ] [ {[ "B" ]}; {[ "A"; "B"; "C" ]} ]
           (Counters 0 0 0) {[ "A"; "B" ]}).
  - vm_compute. reflexivity.
  - intros t Ht. apply elem_of_cons in Ht as [-> | Ht]; [by vm_compute|].
    apply list_elem_of_singleton in Ht as ->. by vm_compute.
  - exists {[ "B" ]}. split; [left|]. intros H.
    apply (f_equal size) in H. vm_compute in H. discriminate H.
Defined.

Lemma unmatched_detected_scoring_witness :
  best_jaccard {[ "A" ]} [ {[ "B" ]}; {[ "C" ]} ] = Ok (0%Q, ∅)
  ∧ detected_body [ {[ "A" ]} ] [ {[ "B" ]}; {[ "C" ]} ] (Counters 0 0 0) {[ "A" ]}
    = Ok {| tp := 0; fp := 0 + len {[ "A" ]}; fn := 0 |}.
Proof.
  apply (unmatched_detected_scoring
           [ {[ "A" ]} ] [ {[ "B" ]}; {[ "C" ]} ] (Counters 0 0 0) {[ "A" ]}).
  - vm_compute. reflexivity.
  - intros t Ht. apply elem_of_cons in Ht as [-> | Ht].
    + eexists. split; [vm_compute; reflexivity | reflexivity].
    + apply list_elem_of_singleton in Ht as ->.
      eexists. split; [vm_compute; reflexivity | reflexivity].
Defined.

Lemma unmatched_truth_scoring_witness :
  ∃ (m : Z) (r' : gset string),
    best_overlap {[ "A"; "B"; "C" ]} [ {[ "A"; "B" ]}; {[ "A" ]} ] = Ok (inject_Z m, r')
    ∧ (∀ r, r ∈ [ ({[ "A"; "B" ]} : gset string); {[ "A" ]} ] →
         len ({[ "A"; "B"; "C" ]} ∩ r) <= m)
    ∧ (m = 0 ∨ 0 < m ∧ r' ∈ [ ({[ "A"; "B" ]} : gset string); {[ "A" ]} ]
                ∧ len ({[ "A"; "B"; "C" ]} ∩ r') = m)
    ∧ truth_body [ {[ "A"; "B" ]}; {[ "A" ]} ] [ {[ "A"; "B"; "C" ]} ]
        (Counters 2 0 1) {[ "A"; "B"; "C" ]}
      = if m =? 0
        then Ok {| tp := 2; fp := 0; fn := 1 + len {[ "A"; "B"; "C" ]} |}
        else Ok (Counters 2 0 1).
Proof.
  apply (unmatched_truth_scoring
           [ {[ "A"; "B" ]}; {[ "A" ]} ] [ {[ "A"; "B"; "C" ]} ]
           (Counters 2 0 1) {[ "A"; "B"; "C" ]}).
  vm_compute. reflexivity.
Defined.

Lemma degenerate_counters_raise_witness :
  derive (Counters 0 0 1) = Raise ZeroDivisionError
  ∧ scorer [] [ {[ "A" ]} ] = Raise ZeroDivisionError.
Proof.
  apply (degenerate_counters_raise [] [ {[ "A" ]} ] (Counters 0 0 1)).
  - vm_compute. reflexivity.
  - left. reflexivity.
Defined.

Lemma self_comparison_witness :
  ∃ f, scorer [ {[ "A"; "B" ]} ] [ {[ "A"; "B" ]} ]
       = Ok ({| tp := len {[ "A"; "B" ]}; fp := 0; fn := 0 |}, f)
       ∧ (precision f == 1)%Q ∧ (recall f == 1)%Q ∧ (fscore f == 1)%Q.
Proof.
  apply (self_comparison {[ "A"; "B" ]}).
  intros H. apply (f_equal size) in H. vm_compute in H. discriminate H.
Defined.

(** C6: the scenario of the specification.  The filter keeps the class
    [{A, B}] only, its best match is the one truth class, at Jaccard
    similarity 2/3, and the run gives [tp = 2], [fp = 0], [fn = 1],
    precision 1, recall 2/3, printed as 0.6667, and F-score 0.8. *)
Theorem scenario :
  let res : list (gset string) := [ {[ "A"; "B" ]}; {[ "A" ]} ] in
  let gt_ : list (gset string) := [ {[ "A"; "B"; "C" ]} ] in
  survivors res = [ {[ "A"; "B" ]} ]
  ∧ (∃ q, best_jaccard {[ "A"; "B" ]} gt_ = Ok (q, {[ "A"; "B"; "C" ]})
          ∧ (q == 2 # 3)%Q)
  ∧ ∃ f, scorer res gt_ = Ok ({| tp := 2; fp := 0; fn := 1 |}, f)
         ∧ (precision f == 1)%Q ∧ fixed4 (precision f) = 10000
         ∧ (recall f == 2 # 3)%Q ∧ fixed4 (recall f) = 6667
         ∧ (fscore f == 8 # 10)%Q ∧ fixed4 (fscore f) = 8000.
Proof.
  intros res gt_. split; [vm_compute; reflexivity|]. split.
  - eexists. split; [vm_compute; reflexivity | reflexivity].
  - eexists. split; [vm_compute; reflexivity|].
    repeat split.
Qed.

(** The figures of the scenario print alike from their binary64 values. *)
Lemma scenario_printed_binary64 :
  fixed4 (binary64 1) = 10000
  ∧ fixed4 (binary64 (2 # 3)) = 6667
  ∧ fixed4 (binary64 (8 # 10)) = 8000.
Proof. by vm_compute. Qed.



Lemma compare_classification_witness :
  compare "a.md5_finish_ctx" "b.sha1_finish_ctx" ∅ ∅
  = (∅ ∪ {[ ordered (unprefixed "a.md5_finish_ctx") (unprefixed "b.sha1_finish_ctx") ]}, ∅).
Proof.
  refine (proj1 (compare_classification "a.md5_finish_ctx" "b.sha1_finish_ctx" ∅ ∅) _).
  right. exists {[ "md5_finish_ctx"; "sha1_finish_ctx" ]}.
  split; [left|]. split; apply (bool_decide_unpack _); vm_compute; exact I.
Defined.

(** * Further properties of the scripts *)

(** ** The counters of calculate_metrics.py *)

Lemma len_split (d t : gset string) : len (d ∩ t) + len (d ∖ t) = len d.
Proof.
  unfold len. pose proof (size_difference_alt d t).
  pose proof (subseteq_size (d ∩ t) d (intersection_subseteq_l d t)). lia.
Qed.

Lemma score_detected_inv (gt_ : list (gset string)) (c c' : counters) (d : gset string) :
  score_detected gt_ c d = Ok c' →
  tp c <= tp c' ∧ fp c <= fp c' ∧ fn c <= fn c'
  ∧ tp c' + fp c' = tp c + fp c + len d.
Proof.
  unfold score_detected. destruct (best_jaccard d gt_) as [[bs bo]|e]; [|done].
  rewrite bind_Ok. intros [= <-]. simpl.
  pose proof (len_nonneg (d ∩ bo)). pose proof (len_nonneg (d ∖ bo)).
  pose proof (len_nonneg (bo ∖ d)). pose proof (len_split d bo). lia.
Qed.

Lemma detected_loop_inv (gt_ l : list (gset string)) (c c' : counters) :
  for_each (score_detected gt_) l c = Ok c' →
  tp c <= tp c' ∧ fp c <= fp c' ∧ fn c <= fn c'
  ∧ tp c' + fp c' = tp c + fp c + total_len l.
Proof.
  revert c. induction l as [|d l IH]; intros c.
  - intros [= <-]. simpl. lia.
  - rewrite for_each_cons. destruct (score_detected gt_ c d) as [c1|e] eqn:Hd; [|done].
    rewrite bind_Ok. intros Hl. apply score_detected_inv in Hd. apply IH in Hl.
    simpl. lia.
Qed.

Lemma score_truth_inv (res : list (gset string)) (c : counters) (t : gset string) :
  ∃ c', score_truth res c t = Ok c'
        ∧ tp c' = tp c ∧ fp c' = fp c ∧ fn c <= fn c'.
Proof.
  destruct (best_overlap_spec t res) as (b & Hb & _).
  unfold score_truth. rewrite Hb, bind_Ok.
  destruct (num_eq (inject_Z b.1) 0); eexists; (split; [done|]); simpl.
  - pose proof (len_nonneg t). lia.
  - lia.
Qed.

Lemma truth_loop_inv (res l : list (gset string)) (c : counters) :
  ∃ c', for_each (score_truth res) l c = Ok c'
        ∧ tp c' = tp c ∧ fp c' = fp c ∧ fn c <= fn c'.
Proof.
  revert c. induction l as [|t l IH]; intros c.
  - exists c. repeat split; [done..|lia].
  - destruct (score_truth_inv res c t) as (c1 & Hc1 & Htp & Hfp & Hfn).
    destruct (IH c1) as (c' & Hc' & Htp' & Hfp' & Hfn').
    exists c'. rewrite for_each_cons, Hc1, bind_Ok. repeat split; [done|lia..].
Qed.

Lemma count_shape (res gt_ : list (gset string)) (c : counters) :
  count res gt_ = Ok c →
  ∃ c1, for_each (score_detected gt_) (survivors res) {| tp := 0; fp := 0; fn := 0 |} = Ok c1
        ∧ for_each (score_truth res) (survivors gt_) c1 = Ok c.
Proof.
  rewrite count_survivors.
  destruct (for_each (score_detected gt_) (survivors res) _) as [c1|e]; [|done].
  rewrite bind_Ok. intros Hc. by exists c1.
Qed.

Lemma count_nonneg (res gt_ : list (gset string)) (c : counters) :
  count res gt_ = Ok c → 0 <= tp c ∧ 0 <= fp c ∧ 0 <= fn c.
Proof.
  intros (c1 & H1 & H2)%count_shape. apply detected_loop_inv in H1. simpl in H1.
  destruct (truth_loop_inv res (survivors gt_) c1) as (c' & Hc' & ? & ? & ?).
  rewrite H2 in Hc'. injection Hc' as <-. lia.
Qed.

(** X7: When the two loops end, no counter is negative, and [tp + fp] is the
    number of members of the surviving detected classes: each member of a
    surviving detected class is counted once, as a true or as a false
    positive. *)
Theorem counters_account_for_survivors (res gt_ : list (gset string)) (c : counters) :
  count res gt_ = Ok c →
  0 <= tp c ∧ 0 <= fp c ∧ 0 <= fn c
  ∧ tp c + fp c = total_len (survivors res).
Proof.
  intros (c1 & H1 & H2)%count_shape. apply detected_loop_inv in H1. simpl in H1.
  destruct (truth_loop_inv res (survivors gt_) c1) as (c' & Hc' & ? & ? & ?).
  rewrite H2 in Hc'. injection Hc' as <-. lia.
Qed.

Lemma counters_account_for_survivors_witness :
  0 <= 2 ∧ 0 <= 0 ∧ 0 <= 1
  ∧ 2 + 0 = total_len (survivors [ {[ "A"; "B" ]}; {[ "A" ]} ]).
Proof.
  apply (counters_account_for_survivors
           [ {[ "A"; "B" ]}; {[ "A" ]} ] [ {[ "A"; "B"; "C" ]} ] (Counters 2 0 1)).
  vm_compute. reflexivity.
Defined.

(** ** When line 49 divides by zero *)

Lemma best_jaccard_raises (gt_ : list (gset string)) :
  ∅ ∈ gt_ → best_jaccard ∅ gt_ = Raise ZeroDivisionError.
Proof.
  intros (l1 & l2 & ->)%list_elem_of_split. unfold best_jaccard.
  rewrite for_each_app.
  destruct (for_each (best_jaccard_step ∅) l1 (0%Q, ∅)) as [[bs bo]|[]]; [|done].
  rewrite bind_Ok, for_each_cons. unfold best_jaccard_step.
  pose proof (left_id_L (∅ : gset string) (∪) ∅) as Hu. rewrite Hu.
  replace (len ∅) with 0 by (symmetry; by apply len_zero).
  by rewrite true_div_zero.
Qed.

Lemma detected_loop_raises (gt_ l : list (gset string)) (c : counters) :
  (∃ d, d ∈ l ∧ best_jaccard d gt_ = Raise ZeroDivisionError) →
  for_each (score_detected gt_) l c = Raise ZeroDivisionError.
Proof.
  revert c. induction l as [|a l IH]; intros c (d & Hd & Hraise).
  - by apply elem_of_nil in Hd.
  - rewrite for_each_cons. apply elem_of_cons in Hd as [-> | Hd].
    + unfold score_detected. by rewrite Hraise.
    + destruct (score_detected gt_ c a) as [c1|[]]; [|done].
      rewrite bind_Ok. apply IH. by exists d.
Qed.

Lemma detected_loop_ok (gt_ l : list (gset string)) (c : counters) :
  (∀ d t, d ∈ l → t ∈ gt_ → d ∪ t ≠ ∅) →
  ∃ c', for_each (score_detected gt_) l c = Ok c'.
Proof.
  revert c. induction l as [|d l IH]; intros c Hdef; [by exists c|].
  destruct (best_jaccard_spec d gt_) as ([bs bo] & Hb & _).
  { intros t Ht. apply Hdef; [left | done]. }
  rewrite for_each_cons.
  assert (∃ c1, score_detected gt_ c d = Ok c1) as [c1 ->].
  { unfold score_detected. rewrite Hb, bind_Ok. by eexists. }
  rewrite bind_Ok. apply IH. intros d' t Hd' Ht. apply Hdef; [by right | done].
Qed.

Lemma empty_survives (res : list (gset string)) :
  ∅ ∈ survivors res ↔ res ≠ [] ∧ ∀ d, d ∈ res → d = ∅.
Proof.
  rewrite elem_of_survivors, subset_flag_false. split.
  - intros [Hin Hall]. split; [intros ->; by apply elem_of_nil in Hin|].
    intros d Hd. destruct (decide (d = ∅)) as [|Hne]; [done|]. exfalso.
    apply (Hall d Hd). split; [apply empty_subseteq|]. intros Hsub. apply Hne.
    apply (anti_symm (⊆)); [done | apply empty_subseteq].
  - intros [Hne Hall]. split.
    + destruct res as [|d res]; [done|]. rewrite <- (Hall d); left.
    + intros s Hs [_ Hn]. apply Hn. rewrite (Hall s Hs). done.
Qed.

(** X6: The two loops raise [ZeroDivisionError] exactly when the detected
    collection is not empty, all its classes are empty, and some truth class
    is empty; on every other input they end with the three counters. *)
Theorem count_raises_iff (res gt_ : list (gset string)) :
  count res gt_ = Raise ZeroDivisionError
  ↔ res ≠ [] ∧ (∀ d, d ∈ res → d = ∅) ∧ ∅ ∈ gt_.
Proof.
  rewrite count_survivors. split.
  - intros Hraise.
    destruct (decide ((∅ : gset string) ∈ survivors res)) as [Hs | Hs];
      destruct (decide ((∅ : gset string) ∈ gt_)) as [Hg | Hg];
      [apply empty_survives in Hs as [? ?]; done | exfalso..].
    all: destruct (detected_loop_ok gt_ (survivors res) {| tp := 0; fp := 0; fn := 0 |})
           as (c1 & Hc1);
      [ intros d t Hd Ht [-> ->]%empty_union_L; done
      | rewrite Hc1, bind_Ok in Hraise;
        destruct (truth_loop_inv res (survivors gt_) c1) as (c' & Hc' & _);
        by rewrite Hc' in Hraise ].
  - intros (Hne & Hall & Hg).
    rewrite detected_loop_raises; [done|]. exists ∅. split.
    + by apply empty_survives.
    + by apply best_jaccard_raises.
Qed.

Lemma count_raises_iff_witness :
  count [ ∅; ∅ ] [ {[ "A" ]}; ∅ ] = Raise ZeroDivisionError.
Proof.
  apply (count_raises_iff [ ∅; ∅ ] [ {[ "A" ]}; ∅ ]).
  split; [discriminate|]. split.
  - intros d Hd. apply elem_of_cons in Hd as [-> | Hd]; [done|].
    by apply list_elem_of_singleton in Hd.
  - right. left.
Defined.

(** ** The figures of lines 69-71 *)

Lemma quot_bounds (a b : Z) :
  0 <= a <= b → 0 < b → (0 <= inject_Z a / inject_Z b <= 1)%Q.
Proof.
  intros [Ha Hab] Hb.
  assert (0 < inject_Z b)%Q as Hb' by (change 0%Q with (inject_Z 0); by rewrite <- Zlt_Qlt).
  split.
  - apply Qle_shift_div_l; [done|]. rewrite Qmult_0_l.
    change 0%Q with (inject_Z 0). by rewrite <- Zle_Qle.
  - apply Qle_shift_div_r; [done|]. rewrite Qmult_1_l. by rewrite <- Zle_Qle.
Qed.

(** X12: When the two loops end with [tp + fp] and [tp + fn] positive, the run
    ends too: the third division cannot fail, and precision, recall and
    F-score all lie between 0 and 1. *)
Theorem figures_defined_and_bounded (res gt_ : list (gset string)) (c : counters) :
  count res gt_ = Ok c →
  0 < tp c + fp c → 0 < tp c + fn c →
  ∃ f, scorer res gt_ = Ok (c, f)
       ∧ (0 <= precision f <= 1)%Q
       ∧ (0 <= recall f <= 1)%Q
       ∧ (0 <= fscore f <= 1)%Q.
Proof.
  intros Hc Hp Hr. destruct (count_nonneg res gt_ c Hc) as (Htp & Hfp & Hfn).
  unfold scorer. rewrite Hc, bind_Ok. unfold derive.
  rewrite (true_div_ok (tp c) (tp c + fp c)), bind_Ok by lia.
  rewrite (true_div_ok (tp c) (tp c + fn c)), bind_Ok by lia.
  rewrite (true_div_ok (2 * tp c) (2 * tp c + fp c + fn c)), !bind_Ok by lia.
  eexists. split; [done|]. simpl.
  repeat split; apply quot_bounds; lia.
Qed.

Lemma figures_defined_and_bounded_witness :
  ∃ f, scorer [ {[ "A"; "B" ]}; {[ "A" ]} ] [ {[ "A"; "B"; "C" ]} ]
       = Ok (Counters 2 0 1, f)
       ∧ (0 <= precision f <= 1)%Q
       ∧ (0 <= recall f <= 1)%Q
       ∧ (0 <= fscore f <= 1)%Q.
Proof.
  apply (figures_defined_and_bounded
           [ {[ "A"; "B" ]}; {[ "A" ]} ] [ {[ "A"; "B"; "C" ]} ] (Counters 2 0 1)).
  - vm_compute. reflexivity.
  - reflexivity.
  - reflexivity.
Defined.

Lemma harmonic_mean (t p n : Q) :
  (0 < t)%Q → (0 <= p)%Q → (0 <= n)%Q →
  (2 * t / (2 * t + p + n)
   == 2 * (t / (t + p)) * (t / (t + n)) / (t / (t + p) + t / (t + n)))%Q.
Proof.
  intros Ht Hp Hn. field. repeat split; try lra.
  intros E.
  assert (t * (2 * t + p + n) == 0)%Q as E' by (rewrite <- E; ring).
  apply Qmult_integral in E' as [E' | E']; lra.
Qed.

(** X13: With at least one true positive the printed F-score is the harmonic mean
    of the printed precision and recall. *)
Theorem fscore_is_harmonic_mean (res gt_ : list (gset string)) (c : counters) (f : figures) :
  scorer res gt_ = Ok (c, f) →
  0 < tp c →
  (fscore f == 2 * precision f * recall f / (precision f + recall f))%Q.
Proof.
  unfold scorer. destruct (count res gt_) as [c0|e] eqn:Hc; [|done].
  rewrite bind_Ok. destruct (derive c0) as [f0|e] eqn:Hf; [|done].
  rewrite bind_Ok. intros [= -> ->] Htp.
  destruct (count_nonneg res gt_ c Hc) as (_ & Hfp & Hfn).
  unfold derive in Hf.
  rewrite (true_div_ok (tp c) (tp c + fp c)), bind_Ok in Hf by lia.
  rewrite (true_div_ok (tp c) (tp c + fn c)), bind_Ok in Hf by lia.
  rewrite (true_div_ok (2 * tp c) (2 * tp c + fp c + fn c)), !bind_Ok in Hf by lia.
  injection Hf as <-. simpl.
  rewrite !inject_Z_plus, !inject_Z_mult.
  apply harmonic_mean.
  - change 0%Q with (inject_Z 0). by rewrite <- Zlt_Qlt.
  - change 0%Q with (inject_Z 0). by rewrite <- Zle_Qle.
  - change 0%Q with (inject_Z 0). by rewrite <- Zle_Qle.
Qed.

(** ** What the filter keeps *)

Lemma exists_largest_superset (c : gset string) (coll : list (gset string)) :
  c ∈ coll →
  ∃ s, s ∈ coll ∧ c ⊆ s ∧ ∀ s', s' ∈ coll → c ⊆ s' → (size s' ≤ size s)%nat.
Proof.
  intros Hc.
  destruct (exists_largest (filter (fun s => c ⊆ s) coll)) as (s & Hs & Hmax).
  { intros Hnil. assert (c ∈ filter (fun s => c ⊆ s) coll) as Hin.
    { apply list_elem_of_filter. done. }
    rewrite Hnil in Hin. by apply elem_of_nil in Hin. }
  apply list_elem_of_filter in Hs as [Hcs Hs]. exists s. repeat split; [done..|].
  intros s' Hs' Hcs'. apply Hmax. by apply list_elem_of_filter.
Qed.

Lemma survivors_cover_class (c : gset string) (coll : list (gset string)) :
  c ∈ coll → ∃ s, s ∈ survivors coll ∧ c ⊆ s.
Proof.
  intros (s & Hs & Hcs & Hmax)%exists_largest_superset. exists s. split; [|done].
  apply elem_of_survivors. split; [done|]. apply subset_flag_false.
  intros s' Hs' Hsub. pose proof (subset_size _ _ Hsub) as Hlt.
  assert (c ⊆ s') as Hcs' by (destruct Hsub as [Hsub _]; by transitivity s).
  specialize (Hmax s' Hs' Hcs'). lia.
Qed.

(** X8: The filter loses no member: every class of a collection is contained
    in a class that survives, and no survivor is strictly contained in a
    class of the collection. *)
Theorem survivors_cover (coll : list (gset string)) :
  (∀ c, c ∈ coll → ∃ s, s ∈ survivors coll ∧ c ⊆ s)
  ∧ (∀ s c, s ∈ survivors coll → c ∈ coll → ¬ s ⊂ c).
Proof.
  split.
  - intros c. apply survivors_cover_class.
  - intros s c [_ Hflag]%elem_of_survivors Hc.
    rewrite subset_flag_false in Hflag. by apply Hflag.
Qed.

Lemma survivors_cover_witness :
  ∃ s, s ∈ survivors [ {[ "A"; "B" ]}; {[ "A" ]} ] ∧ ({[ "A" ]} : gset string) ⊆ s.
Proof.
  apply (proj1 (survivors_cover [ {[ "A"; "B" ]}; {[ "A" ]} ]) {[ "A" ]}).
  right. left.
Defined.

(** ** The second loop and the classes the filter drops *)

Lemma score_truth_overlapping (res : list (gset string)) (c : counters) (t : gset string) :
  (∃ r, r ∈ res ∧ t ∩ r ≠ ∅) → score_truth res c t = Ok c.
Proof.
  intros (r & Hr & Hne). destruct (best_overlap_spec t res) as (b & Hb & Hbest).
  unfold score_truth. rewrite Hb, bind_Ok, num_eq_inject_Z.
  destruct Hbest as [Hnone | i r' Hi Hpos _ _]; simpl.
  - exfalso. apply Hne. apply len_zero. by apply Hnone.
  - by rewrite (proj2 (Z.eqb_neq _ 0)) by lia.
Qed.

Lemma score_truth_ext (res res' : list (gset string)) (c : counters) (t : gset string) :
  (∀ r, r ∈ res → ∃ r', r' ∈ res' ∧ r ⊆ r') →
  (∀ r', r' ∈ res' → ∃ r, r ∈ res ∧ r' ⊆ r) →
  score_truth res c t = score_truth res' c t.
Proof.
  intros Hup Hdown.
  destruct (decide (Exists (fun r => t ∩ r ≠ ∅) res)) as [Hex | Hno].
  - apply Exists_exists in Hex as (r & Hr & Hne).
    rewrite (score_truth_overlapping res) by (by exists r).
    destruct (Hup r Hr) as (r' & Hr' & Hsub).
    rewrite (score_truth_overlapping res'); [done|]. exists r'. split; [done|].
    intros He. apply Hne. apply (anti_symm (⊆)); [|apply empty_subseteq].
    rewrite <- He. by apply intersection_mono_l.
  - apply not_Exists_Forall in Hno; [|apply _]. rewrite Forall_forall in Hno.
    assert (∀ r, r ∈ res → t ∩ r = ∅) as Hdisj.
    { intros r Hr. specialize (Hno r Hr). simpl in Hno.
      destruct (decide (t ∩ r = ∅)); [done | by exfalso]. }
    rewrite (score_truth_disjoint res) by done.
    rewrite (score_truth_disjoint res'); [done|].
    intros r' Hr'. destruct (Hdown r' Hr') as (r & Hr & Hsub).
    apply (anti_symm (⊆)); [|apply empty_subseteq].
    rewrite <- (Hdisj r Hr). by apply intersection_mono_l.
Qed.

(** X9: The second loop runs over all the detected classes, dropped or not, yet
    for each truth class it does what it would do on the surviving detected
    classes alone. *)
Theorem truth_loop_ignores_dropped (res gt_ : list (gset string)) (c : counters)
    (t : gset string) :
  truth_body res gt_ c t = truth_body (survivors res) gt_ c t.
Proof.
  unfold truth_body. destruct (subset_flag t gt_); [done|].
  apply score_truth_ext.
  - intros r Hr. by apply survivors_cover_class.
  - intros r' [Hr' _]%elem_of_survivors. by exists r'.
Qed.

Lemma fscore_is_harmonic_mean_witness :
  let f := {| precision := inject_Z 2 / inject_Z 2;
              recall := inject_Z 2 / inject_Z 3;
              fscore := inject_Z 4 / inject_Z 5 |} in
  (fscore f == 2 * precision f * recall f / (precision f + recall f))%Q.
Proof.
  intros f.
  apply (fscore_is_harmonic_mean
           [ {[ "A"; "B" ]}; {[ "A" ]} ] [ {[ "A"; "B"; "C" ]} ] (Counters 2 0 1) f).
  - vm_compute. reflexivity.
  - reflexivity.
Defined.

(** ** The order of the classes *)

Lemma for_each_Permutation {A S : Type} (body : S -> A -> result S) (l l' : list A) :
  (∀ s x y, (s1 ← body s x; body s1 y) = (s1 ← body s y; body s1 x)) →
  l ≡ₚ l' → ∀ s, for_each body l s = for_each body l' s.
Proof.
  intros Hcomm Hperm. induction Hperm as [|x l l' _ IH|x y l|l l' l'' _ IH1 _ IH2]; intros s.
  - done.
  - rewrite !for_each_cons. destruct (body s x); simpl; [apply IH | done].
  - rewrite !for_each_cons. specialize (Hcomm s x y).
    destruct (body s x) as [sx|ex], (body s y) as [sy|ey]; simpl in *.
    + by rewrite Hcomm.
    + by rewrite Hcomm.
    + by rewrite <- Hcomm.
    + done.
  - by rewrite IH1.
Qed.

Lemma score_detected_comm (gt_ : list (gset string)) (c : counters) (x y : gset string) :
  (c1 ← score_detected gt_ c x; score_detected gt_ c1 y)
  = (c1 ← score_detected gt_ c y; score_detected gt_ c1 x).
Proof.
  unfold score_detected.
  destruct (best_jaccard x gt_) as [[sx bx]|[]], (best_jaccard y gt_) as [[sy by_]|[]];
    simpl; [|done..].
  do 2 f_equal; lia.
Qed.

Lemma subset_flag_Permutation (cc : gset string) (coll coll' : list (gset string)) :
  coll ≡ₚ coll' → subset_flag cc coll = subset_flag cc coll'.
Proof.
  intros Hperm. destruct (subset_flag cc coll') eqn:Hflag.
  - apply subset_flag_true in Hflag as (s & Hs & Hsub).
    apply subset_flag_true. exists s. split; [by rewrite Hperm | done].
  - rewrite subset_flag_false in Hflag. apply subset_flag_false.
    intros s Hs. apply Hflag. by rewrite <- Hperm.
Qed.

Lemma survivors_Permutation (coll coll' : list (gset string)) :
  coll ≡ₚ coll' → survivors coll ≡ₚ survivors coll'.
Proof.
  intros Hperm. unfold survivors.
  rewrite (list_filter_iff (fun cc => subset_flag cc coll = false)
             (fun cc => subset_flag cc coll' = false)).
  - by rewrite Hperm.
  - intros cc. by rewrite (subset_flag_Permutation cc coll coll').
Qed.

Lemma truth_loop_ext (res res' l : list (gset string)) (c : counters) :
  (∀ c t, score_truth res c t = score_truth res' c t) →
  for_each (score_truth res) l c = for_each (score_truth res') l c.
Proof.
  intros Hext. revert c. induction l as [|t l IH]; intros c; [done|].
  rewrite !for_each_cons, Hext. destruct (score_truth res' c t); simpl; [apply IH | done].
Qed.

(** X10: The counters do not depend on the order of the detected classes. *)
Theorem count_detected_order (res res' gt_ : list (gset string)) :
  res ≡ₚ res' → count res gt_ = count res' gt_.
Proof.
  intros Hperm. rewrite !count_survivors.
  rewrite (for_each_Permutation (score_detected gt_) (survivors res) (survivors res'));
    [| apply score_detected_comm | by apply survivors_Permutation].
  destruct (for_each (score_detected gt_) (survivors res') _) as [c1|e]; [|done].
  rewrite !bind_Ok. apply truth_loop_ext. intros c t. apply score_truth_ext.
  - intros r Hr. exists r. split; [by rewrite <- Hperm | done].
  - intros r Hr. exists r. split; [by rewrite Hperm | done].
Qed.

Lemma count_detected_order_witness :
  count [ {[ "A" ]}; {[ "A"; "B" ]} ] [ {[ "A"; "B"; "C" ]} ]
  = count [ {[ "A"; "B" ]}; {[ "A" ]} ] [ {[ "A"; "B"; "C" ]} ].
Proof.
  apply (count_detected_order
           [ {[ "A" ]}; {[ "A"; "B" ]} ] [ {[ "A"; "B" ]}; {[ "A" ]} ]
           [ {[ "A"; "B"; "C" ]} ]).
  apply perm_swap.
Defined.

(** X11: The counters do depend on the order of the truth classes: two truth
    classes at the same Jaccard similarity from a detected class may share
    different numbers of members with it, and the first one is kept. *)
Theorem count_truth_order :
  ∃ res gt_ gt_' : list (gset string),
    gt_ ≡ₚ gt_'
    ∧ count res gt_ = Ok (Counters 1 1 0)
    ∧ count res gt_' = Ok (Counters 2 0 2).
Proof.
  exists [ {[ "a"; "b" ]} ],
         [ {[ "a" ]}; {[ "a"; "b"; "c"; "d" ]} ],
         [ {[ "a"; "b"; "c"; "d" ]}; {[ "a" ]} ].
  split; [apply perm_swap|]. split; vm_compute; reflexivity.
Qed.

(** ** compare.py: the pairs and the two sets *)

Lemma ordered_comm (a b : string) : ordered a b = ordered b a.
Proof.
  unfold ordered. rewrite (String.compare_antisym a b).
  destruct (String.compare b a) eqn:Hba; simpl; [|done..].
  apply String.compare_eq_iff in Hba. by subst b.
Qed.

(** X14: [compare] does not depend on which name comes first. *)
Theorem compare_symmetric (a b : string) (correct_set wrong_set : gset (string * string)) :
  compare a b correct_set wrong_set = compare b a correct_set wrong_set.
Proof. by rewrite !compare_unfold, (ordered_comm (unprefixed a)). Qed.

(** X15: Only the prefix that ends at the first dot is removed: what follows that
    dot is kept whole, other dots included, and a name without a dot is
    kept as it is. *)
Theorem strip_first_dot :
  (∀ p r, contains "." p = false → strip (p ++ String "." r) = r)
  ∧ (∀ a, contains "." a = false → strip a = a).
Proof.
  split.
  - intros p r Hp. rewrite strip_unprefixed. by apply unprefixed_dot.
  - intros a Ha. rewrite strip_unprefixed. by apply unprefixed_no_dot.
Qed.

Lemma strip_first_dot_witness : strip ("sym" ++ String "." "imp.free") = "imp.free".
Proof. apply (proj1 strip_first_dot "sym" "imp.free"). reflexivity. Defined.

Lemma compare_cases (a b : string) (correct_set wrong_set : gset (string * string)) :
  let p := stored_pair (a, b) in
  (same_clone_pair p.1 p.2
   ∧ compare a b correct_set wrong_set = (correct_set ∪ {[ p ]}, wrong_set))
  ∨ (¬ same_clone_pair p.1 p.2
     ∧ compare a b correct_set wrong_set = (correct_set, wrong_set ∪ {[ p ]})).
Proof.
  intros p. subst p. unfold stored_pair. cbn [fst snd]. rewrite compare_unfold.
  destruct (ordered (unprefixed a) (unprefixed b)) as [lo hi]. cbn [fst snd].
  destruct (String.eqb lo hi && negb (String.eqb lo "main")) eqn:Heq.
  - apply andb_true_iff in Heq as [Hlh%String.eqb_eq Hm%negb_true_iff].
    apply String.eqb_neq in Hm. left. split; [by left | done].
  - destruct (decide (Exists (fun g : gset string => lo ∈ g ∧ hi ∈ g) jointp))
      as [Hex | Hno].
    + apply Exists_exists in Hex as (g & Hg & Hin). left. split.
      * right. by exists g.
      * apply search_found. by exists g.
    + right. rewrite Exists_exists in Hno. split.
      * intros [[-> Hm] | (g & Hg & Hin)].
        -- rewrite (proj2 (String.eqb_eq hi hi) eq_refl) in Heq.
           by rewrite (proj2 (String.eqb_neq hi "main") Hm) in Heq.
        -- apply Hno. by exists g.
      * apply search_missed. intros (g & Hg & Hin). apply Hno. by exists g.
Qed.

Lemma compare_all_cons (clone : string * string) (clones : list (string * string))
    (correct wrong : gset (string * string)) :
  compare_all (clone :: clones) correct wrong
  = compare_all clones (compare clone.1 clone.2 correct wrong).1
      (compare clone.1 clone.2 correct wrong).2.
Proof. unfold compare_all. simpl. by destruct (compare clone.1 clone.2 correct wrong). Qed.

(** What the loop over the reported pairs leaves in the two sets. *)
Lemma compare_all_spec (clones : list (string * string))
    (correct wrong : gset (string * string)) (p : string * string) :
  (p ∈ (compare_all clones correct wrong).1
   ↔ p ∈ correct
     ∨ same_clone_pair p.1 p.2 ∧ ∃ clone, clone ∈ clones ∧ stored_pair clone = p)
  ∧ (p ∈ (compare_all clones correct wrong).2
     ↔ p ∈ wrong
       ∨ ¬ same_clone_pair p.1 p.2 ∧ ∃ clone, clone ∈ clones ∧ stored_pair clone = p).
Proof.
  revert correct wrong. induction clones as [|[a b] clones IH]; intros correct wrong.
  - simpl. split; (split; [by left|]); intros [? | (_ & c & Hc & _)]; try done;
      by apply elem_of_nil in Hc.
  - rewrite compare_all_cons. simpl.
    destruct (IH (compare a b correct wrong).1 (compare a b correct wrong).2) as [IHc IHw].
    rewrite IHc, IHw. clear IHc IHw.
    destruct (compare_cases a b correct wrong) as [[Hsame ->] | [Hdiff ->]]; simpl.
    + split.
      * rewrite elem_of_union, elem_of_singleton. split.
        -- intros [[? | ->] | (Hs & c & Hc & Hp)]; [by left | |].
           ++ right. split; [done|]. exists (a, b). split; [left | done].
           ++ right. split; [done|]. exists c. split; [by right | done].
        -- intros [? | (Hs & c & [-> | Hc]%elem_of_cons & Hp)].
           ++ by left; left.
           ++ left. by right.
           ++ right. split; [done|]. by exists c.
      * split.
        -- intros [? | (Hs & c & Hc & Hp)]; [by left|].
           right. split; [done|]. exists c. split; [by right | done].
        -- intros [? | (Hs & c & [-> | Hc]%elem_of_cons & Hp)]; [by left | |].
           ++ exfalso. apply Hs. by rewrite <- Hp.
           ++ right. split; [done|]. by exists c.
    + split.
      * split.
        -- intros [? | (Hs & c & Hc & Hp)]; [by left|].
           right. split; [done|]. exists c. split; [by right | done].
        -- intros [? | (Hs & c & [-> | Hc]%elem_of_cons & Hp)]; [by left | |].
           ++ exfalso. apply Hdiff. by rewrite Hp.
           ++ right. split; [done|]. by exists c.
      * rewrite elem_of_union, elem_of_singleton. split.
        -- intros [[? | ->] | (Hs & c & Hc & Hp)]; [by left | |].
           ++ right. split; [done|]. exists (a, b). split; [left | done].
           ++ right. split; [done|]. exists c. split; [by right | done].
        -- intros [? | (Hs & c & [-> | Hc]%elem_of_cons & Hp)].
           ++ by left; left.
           ++ left. by right.
           ++ right. split; [done|]. by exists c.
Qed.

Lemma compare_all_Permutation (clones clones' : list (string * string))
    (correct wrong : gset (string * string)) :
  clones ≡ₚ clones' →
  compare_all clones correct wrong = compare_all clones' correct wrong.
Proof.
  intros Hperm.
  destruct (compare_all clones correct wrong) as [c w] eqn:H1.
  destruct (compare_all clones' correct wrong) as [c' w'] eqn:H2.
  f_equal; apply set_eq; intros p.
  - pose proof (proj1 (compare_all_spec clones correct wrong p)) as Hc.
    pose proof (proj1 (compare_all_spec clones' correct wrong p)) as Hc'.
    rewrite H1 in Hc. rewrite H2 in Hc'. simpl in *. rewrite Hc, Hc'.
    by setoid_rewrite Hperm.
  - pose proof (proj2 (compare_all_spec clones correct wrong p)) as Hw.
    pose proof (proj2 (compare_all_spec clones' correct wrong p)) as Hw'.
    rewrite H1 in Hw. rewrite H2 in Hw'. simpl in *. rewrite Hw, Hw'.
    by setoid_rewrite Hperm.
Qed.

(** X16: [bindiff] puts in [correct] the stored pairs of the rows with more than
    one basic block and a similarity above [minsim] that are the same clone
    pair, and in [wrong] those that are not; no pair is in both sets. *)
Theorem bindiff_partition {number : Type} (above : number -> number -> bool)
    (bd_res : list (bd_row (number:=number))) (minsim : number) (p : string * string) :
  let kept (row : bd_row) :=
    row ∈ bd_res ∧ 1 < bbs row ∧ above (similarity row) minsim = true in
  (p ∈ (bindiff above bd_res minsim).1
   ↔ same_clone_pair p.1 p.2
     ∧ ∃ row, kept row ∧ stored_pair (primary_name row, secondary_name row) = p)
  ∧ (p ∈ (bindiff above bd_res minsim).2
     ↔ ¬ same_clone_pair p.1 p.2
       ∧ ∃ row, kept row ∧ stored_pair (primary_name row, secondary_name row) = p)
  ∧ ¬ (p ∈ (bindiff above bd_res minsim).1 ∧ p ∈ (bindiff above bd_res minsim).2).
Proof.
  intros kept. unfold bindiff.
  set (rows := filter (fun row => above (similarity row) minsim = true)
                 (filter (fun row => 1 < bbs row) bd_res)).
  assert (∀ q : string * string,
    (∃ clone, clone ∈ (fun row => (primary_name row, secondary_name row)) <$> rows
              ∧ stored_pair clone = q)
    ↔ ∃ row, kept row ∧ stored_pair (primary_name row, secondary_name row) = q) as Hrows.
  { intros q. split.
    - intros (clone & (row & -> & Hrow)%list_elem_of_fmap & Hq).
      exists row. split; [|done]. unfold rows in Hrow.
      apply list_elem_of_filter in Hrow as [Ha Hrow].
      apply list_elem_of_filter in Hrow as [Hb Hrow]. done.
    - intros (row & (Hin & Hb & Ha) & Hq). eexists. split; [|exact Hq].
      apply list_elem_of_fmap. exists row. split; [done|].
      unfold rows. apply list_elem_of_filter. split; [done|].
      by apply list_elem_of_filter. }
  destruct (compare_all_spec ((fun row => (primary_name row, secondary_name row)) <$> rows)
              ∅ ∅ p) as [Hc Hw].
  rewrite Hc, Hw, !Hrows. split; [|split].
  - split; [|by right].
    intros [Hin | Hx]; [by apply not_elem_of_empty in Hin | done].
  - split; [|by right].
    intros [Hin | Hx]; [by apply not_elem_of_empty in Hin | done].
  - intros [[Hin | [Hs _]] [Hin' | [Hn _]]];
      try (by apply not_elem_of_empty in Hin);
      try (by apply not_elem_of_empty in Hin').
    by apply Hn.
Qed.

(** X17: The end of [deepbindiff] visits a set; in whatever order its pairs are
    visited, the two sets come out the same. *)
Theorem classify_order (clones : gset (string * string)) (visited : list (string * string)) :
  visited ≡ₚ elements clones →
  compare_all visited ∅ ∅ = classify clones.
Proof. intros Hperm. unfold classify. by apply compare_all_Permutation. Qed.

Lemma classify_order_witness :
  compare_all [ ("a.foo", "b.foo"); ("x.main", "y.main") ] ∅ ∅
  = classify {[ ("x.main", "y.main"); ("a.foo", "b.foo") ]}.
Proof.
  apply (classify_order {[ ("x.main", "y.main"); ("a.foo", "b.foo") ]}
           [ ("a.foo", "b.foo"); ("x.main", "y.main") ]).
  apply (NoDup_Permutation _ _).
  - apply NoDup_cons. split; [|apply NoDup_singleton].
    intros [=]%list_elem_of_singleton.
  - apply NoDup_elements.
  - intros x. rewrite elem_of_elements, elem_of_union, !elem_of_singleton.
    rewrite elem_of_cons, list_elem_of_singleton. tauto.
Defined.

Lemma size_add_le (X : gset (string * string)) (p : string * string) :
  (size (X ∪ {[ p ]}) ≤ size X + 1)%nat.
Proof.
  pose proof (size_union_alt X {[ p ]}) as Hu.
  pose proof (subseteq_size ({[ p ]} ∖ X) {[ p ]}) as Hd.
  pose proof (size_singleton (C:=gset (string * string)) p) as Hs.
  assert (({[ p ]} : gset (string * string)) ∖ X ⊆ {[ p ]}) as Hsub
    by apply subseteq_difference_l, reflexivity.
  specialize (Hd Hsub). lia.
Qed.

Lemma compare_all_size (clones : list (string * string))
    (correct wrong : gset (string * string)) :
  (size (compare_all clones correct wrong).1 + size (compare_all clones correct wrong).2
   ≤ size correct + size wrong + length clones)%nat.
Proof.
  revert correct wrong. induction clones as [|[a b] clones IH]; intros correct wrong.
  - simpl. lia.
  - rewrite compare_all_cons. simpl.
    specialize (IH (compare a b correct wrong).1 (compare a b correct wrong).2).
    destruct (compare_cases a b correct wrong) as [[_ Hc] | [_ Hc]];
      rewrite Hc in IH |- *; simpl in *.
    + pose proof (size_add_le correct (stored_pair (a, b))). lia.
    + pose proof (size_add_le wrong (stored_pair (a, b))). lia.
Qed.

(** X18: The matches counted at the end of [deepbindiff], right and wrong
    together, are never more than the pairs reported: pairs that differ only
    by prefixes or by the order of the two names are counted once. *)
Theorem classify_counts (clones : gset (string * string)) :
  (size (classify clones).1 + size (classify clones).2 ≤ size clones)%nat.
Proof.
  unfold classify. pose proof (compare_all_size (elements clones) ∅ ∅) as H.
  rewrite !size_empty in H.
  assert (size clones = length (elements clones)) as -> by done. lia.
Qed.

(** X19: The precision of a tool is undefined - the division raises - exactly
    when none of its pairs was classified, and lies between 0 and 1
    otherwise. *)
Theorem bd_precision_defined (bd_correct bd_wrong : gset (string * string)) :
  (bd_precision bd_correct bd_wrong = Raise ZeroDivisionError
   ↔ bd_correct = ∅ ∧ bd_wrong = ∅)
  ∧ (bd_correct ≠ ∅ ∨ bd_wrong ≠ ∅ →
     ∃ q, bd_precision bd_correct bd_wrong = Ok q ∧ (0 <= q <= 1)%Q).
Proof.
  unfold bd_precision.
  assert (size bd_correct = 0%nat ↔ bd_correct = ∅) as Hc
    by (rewrite <- (leibniz_equiv_iff bd_correct ∅); apply size_empty_iff).
  assert (size bd_wrong = 0%nat ↔ bd_wrong = ∅) as Hw
    by (rewrite <- (leibniz_equiv_iff bd_wrong ∅); apply size_empty_iff).
  split; [split|].
  - intros Hraise.
    destruct (decide (Z.of_nat (size bd_correct) + Z.of_nat (size bd_wrong) = 0)) as [Hz | Hz].
    + split; [apply Hc | apply Hw]; lia.
    + by rewrite true_div_ok in Hraise.
  - intros [-> ->]. by rewrite !size_empty.
  - intros Hne.
    assert (0 < Z.of_nat (size bd_correct) + Z.of_nat (size bd_wrong)) as Hpos.
    { destruct Hne as [Hne | Hne]; [rewrite <- Hc in Hne | rewrite <- Hw in Hne]; lia. }
    rewrite true_div_ok by lia. eexists. split; [done|].
    apply quot_bounds; lia.
Qed.

Lemma bd_precision_defined_witness :
  ∃ q, bd_precision {[ ("foo", "foo") ]} {[ ("main", "main") ]} = Ok q ∧ (0 <= q <= 1)%Q.
Proof.
  apply (proj2 (bd_precision_defined {[ ("foo", "foo") ]} {[ ("main", "main") ]})).
  left. intros H. apply (f_equal size) in H. vm_compute in H. discriminate H.
Defined.

Lemma pairs_two_step {A : Type} (P : list A -> Prop) :
  P [] → (∀ x, P [x]) → (∀ x y l, P l → P (x :: y :: l)) → ∀ l, P l.
Proof.
  intros Hnil Hone Hstep l.
  assert (P l ∧ ∀ x, P (x :: l)) as [H _]; [|done].
  induction l as [|y l [IH1 IH2]]; [by split|].
  split; [apply IH2|]. intros x. by apply Hstep.
Qed.

(** X20: Line 64 pairs the numbers two by two in their order: there are half as
    many pairs as numbers, and the pairs written out again give the numbers
    back, but for a last one left without a partner. *)
Theorem pairs_round_trip {A : Type} (l : list A) :
  length (pairs l) = Nat.div (length l) 2
  ∧ (pairs l ≫= fun p => [p.1; p.2]) = take (2 * Nat.div (length l) 2) l.
Proof.
  induction l as [|x|x y l [IHlen IHflat]] using pairs_two_step; [done..|].
  assert (Nat.div (length (x :: y :: l)) 2 = S (Nat.div (length l) 2)) as Hdiv.
  { change (length (x :: y :: l)) with (S (S (length l))).
    replace (S (S (length l))) with (length l + 1 * 2)%nat by lia.
    rewrite Nat.div_add by done. lia. }
  rewrite Hdiv. split.
  - simpl. by rewrite IHlen.
  - replace (2 * S (Nat.div (length l) 2))%nat with (S (S (2 * Nat.div (length l) 2))) by lia.
    simpl pairs. rewrite bind_cons. simpl. by rewrite IHflat.
Qed.

Lemma bindiff_partition_witness :
  ¬ (("foo", "foo") ∈ (bindiff num_gt [ BdRow "a.foo" "b.foo" 3 (1 # 2)%Q ] (1 # 4)%Q).1
     ∧ ("foo", "foo") ∈ (bindiff num_gt [ BdRow "a.foo" "b.foo" 3 (1 # 2)%Q ] (1 # 4)%Q).2).
Proof.
  apply (bindiff_partition num_gt [ BdRow "a.foo" "b.foo" 3 (1 # 2)%Q ] (1 # 4)%Q
           ("foo", "foo")).
Defined.

(** ** calculate_metrics.py: the collections built by [to_ccs] *)

Lemma fold_max_spec (s : list Z) (x : Z) :
  (fold_left Z.max s x = x ∨ fold_left Z.max s x ∈ s)
  ∧ x <= fold_left Z.max s x
  ∧ ∀ y, y ∈ s → y <= fold_left Z.max s x.
Proof.
  revert x. induction s as [|z s IH]; intros x; simpl.
  - split; [by left|]. split; [lia|]. intros y Hy. by apply elem_of_nil in Hy.
  - destruct (IH (Z.max x z)) as (Hin & Hle & Hall). split; [|split].
    + destruct Hin as [-> | Hin]; [|right; by right].
      destruct (Z.max_spec x z) as [[_ ->] | [_ ->]]; [right; left | by left].
    + lia.
    + intros y [-> | Hy]%elem_of_cons; [lia | auto].
Qed.

Lemma column_max_spec (s : list Z) (m : Z) :
  CloneClasses.column_max s = Some m → m ∈ s ∧ ∀ y, y ∈ s → y <= m.
Proof.
  destruct s as [|x s]; [done|]. simpl. intros [= <-].
  destruct (fold_max_spec s x) as (Hin & Hle & Hall). split.
  - destruct Hin as [-> | Hin]; [left | by right].
  - intros y [-> | Hy]%elem_of_cons; [done | auto].
Qed.

Lemma fold_add_identifier (l : list CloneClasses.row) (acc : gset string) (x : string) :
  x ∈ fold_left (fun clones r => clones ∪ {[ CloneClasses.identifier r ]}) l acc
  ↔ x ∈ acc ∨ ∃ r, r ∈ l ∧ CloneClasses.identifier r = x.
Proof.
  revert acc. induction l as [|r l IH]; intros acc; simpl.
  - split; [by left|]. intros [? | (r & Hr & _)]; [done|]. by apply elem_of_nil in Hr.
  - rewrite IH, elem_of_union, elem_of_singleton. split.
    + intros [[? | ->] | (r' & Hr' & Hx)]; [by left | |].
      * right. exists r. split; [left | done].
      * right. exists r'. split; [by right | done].
    + intros [? | (r' & [-> | Hr']%elem_of_cons & Hx)].
      * by left; left.
      * left. by right.
      * right. by exists r'.
Qed.

Lemma elem_of_clones_of (df : list CloneClasses.row) (i : Z) (x : string) :
  x ∈ CloneClasses.clones_of df i
  ↔ ∃ r, r ∈ df ∧ CloneClasses.clone_class_id r = i ∧ CloneClasses.identifier r = x.
Proof.
  unfold CloneClasses.clones_of. rewrite fold_add_identifier. split.
  - intros [Hx | (r & [Hi Hr]%list_elem_of_filter & Hx)]; [by apply not_elem_of_empty in Hx|].
    by exists r.
  - intros (r & Hr & Hi & Hx). right. exists r. split; [|done].
    by apply list_elem_of_filter.
Qed.

Lemma to_ccs_Some (df : list CloneClasses.row) (l : list (gset string)) :
  CloneClasses.to_ccs df = Some l →
  ∃ m, CloneClasses.column_max (CloneClasses.clone_class_id <$> df) = Some m
       ∧ l = CloneClasses.clones_of df <$> seqZ 0 (CloneClasses.int64_succ m).
Proof.
  unfold CloneClasses.to_ccs.
  destruct (CloneClasses.column_max (CloneClasses.clone_class_id <$> df)) as [m|]; [|done].
  simpl. intros [= <-]. by exists m.
Qed.

(** X2: The class at index [i] of the collection holds the identifiers of the
    rows whose [clone_class_id] is [i], and nothing else. *)
Theorem to_ccs_classes (df : list CloneClasses.row) (l : list (gset string))
    (i : nat) (cls : gset string) (x : string) :
  CloneClasses.to_ccs df = Some l →
  l !! i = Some cls →
  x ∈ cls
  ↔ ∃ r, r ∈ df ∧ CloneClasses.clone_class_id r = Z.of_nat i
         ∧ CloneClasses.identifier r = x.
Proof.
  intros (m & _ & ->)%to_ccs_Some Hi.
  apply list_lookup_fmap_Some in Hi as (k & Hcls & Hk).
  apply lookup_seqZ in Hk as [-> _]. subst cls.
  rewrite Z.add_0_l. apply elem_of_clones_of.
Qed.

Lemma to_ccs_length (df : list CloneClasses.row) (l : list (gset string)) (m : Z) :
  CloneClasses.column_max (CloneClasses.clone_class_id <$> df) = Some m →
  l = CloneClasses.clones_of df <$> seqZ 0 (CloneClasses.int64_succ m) →
  length l = Z.to_nat (CloneClasses.int64_succ m).
Proof. intros _ ->. by rewrite length_fmap, length_seqZ. Qed.

Lemma int64_succ_no_wrap (m : Z) :
  m ≠ 2 ^ 63 - 1 → CloneClasses.int64_succ m = m + 1.
Proof.
  intros Hm. unfold CloneClasses.int64_succ.
  by rewrite (proj2 (Z.eqb_neq m (2 ^ 63 - 1)) Hm).
Qed.

Lemma int64_succ_wrap : CloneClasses.int64_succ (2 ^ 63 - 1) = - 2 ^ 63.
Proof. reflexivity. Qed.

(** X3: When no class index is the largest int64, no row with a class index
    of 0 or more is lost: its identifier is in the class at that index. *)
Theorem to_ccs_keeps_rows (df : list CloneClasses.row) (l : list (gset string))
    (r : CloneClasses.row) :
  CloneClasses.to_ccs df = Some l →
  (∀ r', r' ∈ df → CloneClasses.clone_class_id r' < 2 ^ 63 - 1) →
  r ∈ df →
  0 <= CloneClasses.clone_class_id r →
  ∃ cls, l !! Z.to_nat (CloneClasses.clone_class_id r) = Some cls
         ∧ CloneClasses.identifier r ∈ cls.
Proof.
  intros (m & Hm & ->)%to_ccs_Some Hint Hr Hid.
  apply column_max_spec in Hm as [Hin Hmax].
  assert (CloneClasses.clone_class_id r <= m) as Hle.
  { apply Hmax. by apply list_elem_of_fmap_2. }
  assert (m < 2 ^ 63 - 1) as Hm.
  { apply list_elem_of_fmap in Hin as (r' & -> & Hr'). by apply Hint. }
  rewrite int64_succ_no_wrap by lia.
  exists (CloneClasses.clones_of df (CloneClasses.clone_class_id r)). split.
  - rewrite list_lookup_fmap, (lookup_seqZ_lt 0 (m + 1)) by lia. simpl.
    f_equal. f_equal. lia.
  - apply elem_of_clones_of. by exists r.
Qed.

Lemma to_ccs_nonempty (df : list CloneClasses.row) (l : list (gset string)) (m : Z) :
  CloneClasses.column_max (CloneClasses.clone_class_id <$> df) = Some m →
  l = CloneClasses.clones_of df <$> seqZ 0 (CloneClasses.int64_succ m) →
  l ≠ [] →
  0 <= m ∧ length l = Z.to_nat (m + 1).
Proof.
  intros Hm Hl Hne. pose proof (to_ccs_length df l m Hm Hl) as Hlen.
  destruct (decide (m = 2 ^ 63 - 1)) as [-> | Hw].
  - rewrite int64_succ_wrap in Hlen. destruct l; [done | discriminate Hlen].
  - rewrite int64_succ_no_wrap in Hlen by done. split; [|done].
    destruct l; [done|]. simpl in Hlen. lia.
Qed.

Lemma to_ccs_last (df : list CloneClasses.row) (l : list (gset string)) :
  CloneClasses.to_ccs df = Some l →
  l ≠ [] →
  ∃ cls, last l = Some cls ∧ cls ≠ ∅.
Proof.
  intros (m & Hm & Hl)%to_ccs_Some Hne.
  destruct (to_ccs_nonempty df l m Hm Hl Hne) as [Hm0 Hlen].
  assert (CloneClasses.int64_succ m = m + 1) as Hs.
  { apply int64_succ_no_wrap. intros ->. clear Hlen Hm0.
    pose proof (to_ccs_length df l _ Hm Hl) as Hlen'.
    rewrite int64_succ_wrap in Hlen'. destruct l; [by apply Hne | discriminate Hlen']. }
  apply column_max_spec in Hm as [Hin _].
  apply list_elem_of_fmap in Hin as (r & Hr & Hin).
  exists (CloneClasses.clones_of df m). split.
  - rewrite last_lookup, Hlen, Hl, Hs, list_lookup_fmap, (lookup_seqZ_lt 0 (m + 1)) by lia.
    simpl. f_equal. f_equal. lia.
  - intros He. assert (CloneClasses.identifier r ∈ CloneClasses.clones_of df m) as Hx.
    { apply elem_of_clones_of. by exists r. }
    rewrite He in Hx. by apply not_elem_of_empty in Hx.
Qed.

(** X4: A collection that is not empty is longer than every class index of
    the table, and its last class is not empty; the classes before it may
    be.  The collection is not empty when some index is 0 or more and none
    is the largest int64; when the largest index is the largest int64 the
    sum of line 12 wraps and the collection is empty. *)
Theorem to_ccs_last_class (df : list CloneClasses.row) (l : list (gset string)) :
  CloneClasses.to_ccs df = Some l →
  (l ≠ [] →
   (∀ r, r ∈ df → CloneClasses.clone_class_id r < Z.of_nat (length l))
   ∧ ∃ cls, last l = Some cls ∧ cls ≠ ∅)
  ∧ ((∀ r, r ∈ df → CloneClasses.clone_class_id r < 2 ^ 63 - 1) →
     (∃ r, r ∈ df ∧ 0 <= CloneClasses.clone_class_id r) →
     l ≠ [])
  ∧ ((∀ r, r ∈ df → CloneClasses.clone_class_id r <= 2 ^ 63 - 1) →
     (∃ r, r ∈ df ∧ CloneClasses.clone_class_id r = 2 ^ 63 - 1) →
     l = []).
Proof.
  intros Hto. pose proof Hto as (m & Hm & Hl)%to_ccs_Some.
  pose proof (column_max_spec _ _ Hm) as [Hin Hmax].
  assert (∀ r, r ∈ df → CloneClasses.clone_class_id r <= m) as Hmax'.
  { intros r Hr. apply Hmax. by apply list_elem_of_fmap_2. }
  apply list_elem_of_fmap in Hin as (r0 & Hr0 & Hin0).
  split; [|split].
  - intros Hne. split; [|by apply (to_ccs_last df)].
    destruct (to_ccs_nonempty df l m Hm Hl Hne) as [_ ->].
    intros r Hr. specialize (Hmax' r Hr). lia.
  - intros Hint (r & Hr & Hid) ->.
    pose proof (to_ccs_length df [] m Hm Hl) as Hlen.
    specialize (Hint r0 Hin0). specialize (Hmax' r Hr).
    rewrite int64_succ_no_wrap in Hlen by lia. simpl in Hlen. lia.
  - intros Hint (r & Hr & Hid).
    assert (m = 2 ^ 63 - 1) as ->.
    { specialize (Hint r0 Hin0). specialize (Hmax' r Hr). lia. }
    rewrite int64_succ_wrap in Hl. by rewrite Hl.
Qed.

Lemma count_ok (res gt_ : list (gset string)) :
  res = [] ∨ (∃ d, d ∈ res ∧ d ≠ ∅) →
  ∃ c, count res gt_ = Ok c.
Proof.
  intros Hres. rewrite count_survivors.
  destruct (detected_loop_ok gt_ (survivors res) {| tp := 0; fp := 0; fn := 0 |})
    as (c1 & Hc1).
  { intros d t Hd Ht [-> _]%empty_union_L.
    apply empty_survives in Hd as [Hne Hall].
    destruct Hres as [-> | (d & Hd & Hd')]; [done|]. by apply Hd', Hall. }
  rewrite Hc1, bind_Ok.
  destruct (truth_loop_inv res (survivors gt_) c1) as (c & Hc & _). by exists c.
Qed.

(** X5: On two collections built by [to_ccs] the two loops always end: line 49
    never divides by zero, whatever classes are empty. *)
Theorem count_on_to_ccs (results truth : list CloneClasses.row)
    (res gt_ : list (gset string)) :
  CloneClasses.to_ccs results = Some res →
  CloneClasses.to_ccs truth = Some gt_ →
  ∃ c, count res gt_ = Ok c.
Proof.
  intros Hres _. apply count_ok. destruct res as [|d res]; [by left|]. right.
  destruct (to_ccs_last results (d :: res) Hres) as (cls & Hlast & Hne); [done|].
  exists cls. split; [|done].
  rewrite last_lookup in Hlast. by apply list_elem_of_lookup_2 in Hlast.
Qed.

Lemma to_ccs_classes_witness :
  "[x8664]ls::quotearg" ∈ ({[ "[x8664]ls::quotearg" ]} : gset string)
  ↔ ∃ r, r ∈ [ CloneClasses.Row "x86" 64 "/usr/bin/ls" "quotearg" 1 ]
         ∧ CloneClasses.clone_class_id r = Z.of_nat 1
         ∧ CloneClasses.identifier r = "[x8664]ls::quotearg".
Proof.
  apply (to_ccs_classes [ CloneClasses.Row "x86" 64 "/usr/bin/ls" "quotearg" 1 ]
           [ ∅; {[ "[x8664]ls::quotearg" ]} ] 1 {[ "[x8664]ls::quotearg" ]}
           "[x8664]ls::quotearg").
  - vm_compute. reflexivity.
  - reflexivity.
Defined.

Lemma to_ccs_keeps_rows_witness :
  ∃ cls, [ (∅ : gset string); {[ "[x8664]ls::quotearg" ]} ] !! Z.to_nat 1 = Some cls
         ∧ "[x8664]ls::quotearg" ∈ cls.
Proof.
  apply (to_ccs_keeps_rows [ CloneClasses.Row "x86" 64 "/usr/bin/ls" "quotearg" 1 ]
           [ ∅; {[ "[x8664]ls::quotearg" ]} ]
           (CloneClasses.Row "x86" 64 "/usr/bin/ls" "quotearg" 1)).
  - vm_compute. reflexivity.
  - intros r' Hr'. apply list_elem_of_singleton in Hr' as ->. reflexivity.
  - left.
  - discriminate.
Defined.

Lemma to_ccs_last_class_witness :
  (∀ r, r ∈ [ CloneClasses.Row "x86" 64 "/usr/bin/ls" "quotearg" 1 ] →
        CloneClasses.clone_class_id r
        < Z.of_nat (length [ (∅ : gset string); {[ "[x8664]ls::quotearg" ]} ]))
  ∧ ∃ cls, last [ (∅ : gset string); {[ "[x8664]ls::quotearg" ]} ] = Some cls ∧ cls ≠ ∅.
Proof.
  apply (to_ccs_last_class [ CloneClasses.Row "x86" 64 "/usr/bin/ls" "quotearg" 1 ]
           [ ∅; {[ "[x8664]ls::quotearg" ]} ]).
  - vm_compute. reflexivity.
  - discriminate.
Defined.

Lemma count_on_to_ccs_witness :
  ∃ c, count [ ∅; {[ "[x8664]ls::quotearg" ]} ] [ ∅; ∅; {[ "[arm64]ls::quotearg" ]} ] = Ok c.
Proof.
  apply (count_on_to_ccs
           [ CloneClasses.Row "x86" 64 "/usr/bin/ls" "quotearg" 1 ]
           [ CloneClasses.Row "arm" 64 "ls" "quotearg" 2 ]).
  - vm_compute. reflexivity.
  - vm_compute. reflexivity.
Defined.

(** ** generate_ground_truth.py: [clone_map] *)

Lemma fold_add_bin_None (l : list GroundTruth.row) (m : gmap string (gset string))
    (f : string) :
  fold_left GroundTruth.add_bin l m !! f = None
  ↔ m !! f = None ∧ ∀ r, r ∈ l → GroundTruth.func r ≠ f.
Proof.
  revert m. induction l as [|r l IH]; intros m; simpl.
  - split; [|by intros [? _]]. intros Hm. split; [done|].
    intros r Hr. by apply elem_of_nil in Hr.
  - rewrite IH. unfold GroundTruth.add_bin at 1.
    destruct (decide (GroundTruth.func r = f)) as [<- | Hne].
    + rewrite lookup_insert_eq. split; [by intros [? _]|].
      intros [_ Hall]. exfalso. apply (Hall r); [left | done].
    + rewrite lookup_insert_ne by done. split.
      * intros [Hm Hall]. split; [done|].
        intros r' [-> | Hr']%elem_of_cons; [done | auto].
      * intros [Hm Hall]. split; [done|]. intros r' Hr'. apply Hall. by right.
Qed.

Lemma fold_add_bin_Some (l : list GroundTruth.row) (m : gmap string (gset string))
    (f : string) (S : gset string) (b : string) :
  fold_left GroundTruth.add_bin l m !! f = Some S →
  b ∈ S
  ↔ b ∈ default ∅ (m !! f)
    ∨ ∃ r, r ∈ l ∧ GroundTruth.func r = f ∧ GroundTruth.bin r = b.
Proof.
  revert m. induction l as [|r l IH]; intros m; simpl.
  - intros ->. simpl. split; [by left|].
    intros [? | (r & Hr & _)]; [done|]. by apply elem_of_nil in Hr.
  - intros HS. rewrite (IH _ HS). unfold GroundTruth.add_bin.
    destruct (decide (GroundTruth.func r = f)) as [<- | Hne].
    + rewrite lookup_insert_eq. simpl. rewrite elem_of_union, elem_of_singleton. split.
      * intros [[? | ->] | (r' & Hr' & Hf & Hb)]; [by left | |].
        -- right. exists r. split; [left | done].
        -- right. exists r'. split; [by right | done].
      * intros [? | (r' & [-> | Hr']%elem_of_cons & Hf & Hb)].
        -- by left; left.
        -- left. by right.
        -- right. by exists r'.
    + rewrite lookup_insert_ne by done. split.
      * intros [? | (r' & Hr' & Hf & Hb)]; [by left|].
        right. exists r'. split; [by right | done].
      * intros [? | (r' & [-> | Hr']%elem_of_cons & Hf & Hb)]; [by left | done |].
        right. by exists r'.
Qed.

Lemma clone_map_lookup (df : list GroundTruth.row) (arch_ f : string) :
  (GroundTruth.clone_map df arch_).1 !! f
  = if decide (f ∈ [ "main"; "dbg.main"; "entry.fini0"; "entry.init0" ]) then None
    else fold_left GroundTruth.add_bin
           (filter (fun r => GroundTruth.arch r = arch_) df) ∅ !! f.
Proof.
  unfold GroundTruth.clone_map. simpl. rewrite !lookup_delete.
  destruct (decide (f ∈ [ "main"; "dbg.main"; "entry.fini0"; "entry.init0" ])) as [Hf | Hf].
  - do 4 (apply elem_of_cons in Hf as [-> | Hf]; [repeat case_decide; done|]).
    by apply elem_of_nil in Hf.
  - repeat case_decide; try done; subst f; exfalso; apply Hf;
      repeat first [ by left | right ].
Qed.

(** X21: The names [main], [dbg.main], [entry.fini0] and [entry.init0] are never
    keys of the map [clone_map] returns; any other name is a key exactly
    when the table has a row of the architecture for it. *)
Theorem clone_map_keys (df : list GroundTruth.row) (arch_ f : string) :
  (f ∈ [ "main"; "dbg.main"; "entry.fini0"; "entry.init0" ] →
   (GroundTruth.clone_map df arch_).1 !! f = None)
  ∧ (f ∉ [ "main"; "dbg.main"; "entry.fini0"; "entry.init0" ] →
     (is_Some ((GroundTruth.clone_map df arch_).1 !! f)
      ↔ ∃ r, r ∈ df ∧ GroundTruth.arch r = arch_ ∧ GroundTruth.func r = f)).
Proof.
  rewrite clone_map_lookup. split; intros Hf.
  - by rewrite decide_True.
  - rewrite decide_False by done. rewrite <- not_eq_None_Some, fold_add_bin_None.
    split.
    + intros Hno.
      destruct (decide (Exists (fun r => GroundTruth.func r = f)
                          (filter (fun r => GroundTruth.arch r = arch_) df)))
        as [Hex | Hnex].
      * apply Exists_exists in Hex as (r & [Ha Hr]%list_elem_of_filter & Hfr).
        by exists r.
      * exfalso. apply Hno. split; [done|]. intros r Hr Hfr. apply Hnex.
        apply Exists_exists. by exists r.
    + intros (r & Hr & Ha & Hfr) [_ Hall]. apply (Hall r); [|done].
      by apply list_elem_of_filter.
Qed.

Lemma clone_map_keys_witness :
  (GroundTruth.clone_map [ GroundTruth.Row "amd64" "ls" "main" ] "amd64").1 !! "main" = None.
Proof.
  apply (clone_map_keys [ GroundTruth.Row "amd64" "ls" "main" ] "amd64" "main").
  left.
Defined.

(** X22: The set kept for a function holds the binaries of the rows of the
    architecture that name the function, and it is never empty. *)
Theorem clone_map_bins (df : list GroundTruth.row) (arch_ f : string) (S : gset string) :
  (GroundTruth.clone_map df arch_).1 !! f = Some S →
  S ≠ ∅
  ∧ ∀ b, b ∈ S
         ↔ ∃ r, r ∈ df ∧ GroundTruth.arch r = arch_
                ∧ GroundTruth.func r = f ∧ GroundTruth.bin r = b.
Proof.
  rewrite clone_map_lookup. case_decide as Hf; [done|]. intros HS.
  assert (∀ b, b ∈ S
               ↔ ∃ r, r ∈ df ∧ GroundTruth.arch r = arch_
                      ∧ GroundTruth.func r = f ∧ GroundTruth.bin r = b) as Hbins.
  { intros b. rewrite (fold_add_bin_Some _ _ _ _ b HS), lookup_empty. simpl. split.
    - intros [Hb | (r & [Ha Hr]%list_elem_of_filter & Hfr & Hb)];
        [by apply not_elem_of_empty in Hb|]. by exists r.
    - intros (r & Hr & Ha & Hfr & Hb). right. exists r. split; [|done].
      by apply list_elem_of_filter. }
  split; [|done]. intros ->.
  assert (fold_left GroundTruth.add_bin
            (filter (fun r => GroundTruth.arch r = arch_) df) ∅ !! f ≠ None) as Hsome
    by (by rewrite HS).
  rewrite fold_add_bin_None in Hsome.
  destruct (decide (Exists (fun r => GroundTruth.func r = f)
                      (filter (fun r => GroundTruth.arch r = arch_) df)))
    as [Hex | Hnex].
  - apply Exists_exists in Hex as (r & [Ha Hr]%list_elem_of_filter & Hfr).
    apply (not_elem_of_empty (C:=gset string) (GroundTruth.bin r)).
    apply Hbins. by exists r.
  - apply Hsome. split; [done|]. intros r Hr Hfr. apply Hnex.
    apply Exists_exists. by exists r.
Qed.

Lemma clone_map_bins_witness :
  ({[ "ls"; "dir" ]} : gset string) ≠ ∅
  ∧ ∀ b, b ∈ ({[ "ls"; "dir" ]} : gset string)
         ↔ ∃ r, r ∈ [ GroundTruth.Row "amd64" "ls" "dbg.quotearg";
                      GroundTruth.Row "aarch64" "cp" "dbg.quotearg";
                      GroundTruth.Row "amd64" "dir" "dbg.quotearg" ]
                ∧ GroundTruth.arch r = "amd64"
                ∧ GroundTruth.func r = "dbg.quotearg" ∧ GroundTruth.bin r = b.
Proof.
  apply (clone_map_bins
           [ GroundTruth.Row "amd64" "ls" "dbg.quotearg";
             GroundTruth.Row "aarch64" "cp" "dbg.quotearg";
             GroundTruth.Row "amd64" "dir" "dbg.quotearg" ] "amd64" "dbg.quotearg").
  vm_compute. reflexivity.
Defined.


